(** * s5-client-js: URL algebra, domain resolver and upload partitioner

    A shallow embedding of [src/utils/url.ts], of [extractOptions]
    ([src/utils/options.ts]) and of the partitioning, dispatch and size
    encoding code of [src/upload.ts], with the properties the specification
    states about them and further properties read off the code.

    Conventions of the embedding.
    - A JavaScript [number] that holds a byte size, a count or an index is a
      [Z], the integer it stands for.  In the partitioner, whose sums and
      quotient can pass 2^53, a sum and a quotient are rounded as binary64
      arithmetic rounds them; elsewhere the embedding covers the integers on
      which the arithmetic is exact.  The remainder operator [%] is [Z.rem]
      (the sign follows the dividend; it is exact in binary64).
    - A JavaScript string is a [string]; an [ascii] stands for one code unit
      below 256.
    - A function that may throw returns a [Result]; [Throw] carries the
      exception.  Statements run in sequence through the bind of [Result].
    - [validateString] calls are left out: the arguments are strings by
      type. *)

From stdpp Require Import base option list strings pretty gmap.
From Stdlib Require Import ZArith Lia Ascii.

Local Open Scope Z_scope.

(** ** Exceptions and results *)

(** What ends a computation early.  The first three are exceptions of the
    program and of the platform.  The last two mark the border of the
    embedding: [NotANumber] stands for an [undefined] or [NaN] that entered
    the arithmetic (nothing is thrown, but the numbers are no longer
    integers), [OutsideFragment] for a URL operation on input beyond the
    embedded part of the URL Standard, and for arithmetic that leaves the
    finite integers or a loop that would not end.  A property stated of an
    [Ok] result depends on neither. *)
Inductive Exn : Type :=
| ValidationError (name valueKind expected : string)
| TypeError (message : string)
| RangeError
| NotANumber
| OutsideFragment (what : string).

Inductive Result (A : Type) : Type :=
| Ok (a : A)
| Throw (e : Exn).
Arguments Ok {A} a.
Arguments Throw {A} e.

#[global] Instance Result_ret : MRet Result := λ A a, Ok a.
#[global] Instance Result_bind : MBind Result := λ A B f m,
  match m with
  | Ok a => f a
  | Throw e => Throw e
  end.

(** [if (c) { body }] for a body that only throws. *)
Definition when (c : bool) (body : Result unit) : Result unit :=
  if c then body else Ok tt.

Definition isValidationError {A} (r : Result A) : bool :=
  match r with Throw (ValidationError _ _ _) => true | _ => false end.

(** Modelled from the spec: [throwValidationError] of [utils/validation.ts],
    which is not part of the sources at hand.  The specification calls the
    failure of a precondition an [InvalidArgument] error that is raised
    immediately; the embedding raises a [ValidationError] that records the
    name of the offending value, its kind and what was expected of it (the
    value itself is not recorded). *)
Definition throwValidationError {A} (name valueKind expected : string) : Result A :=
  Throw (ValidationError name valueKind expected).

(** A [for (let i = lo; i < hi; i++)] loop over a state [S], run for the
    [n] remaining iterations from [i]. *)
Fixpoint forLoop {S} (n : nat) (i : Z) (body : Z → S → Result S) (s : S) : Result S :=
  match n with
  | O => Ok s
  | Datatypes.S n' => s' ← body i s; forLoop n' (i + 1) body s'
  end.

Definition forRange {S} (lo hi : Z) (body : Z → S → Result S) (s : S) : Result S :=
  forLoop (Z.to_nat (hi - lo)) lo body s.

(** ** Numbers

    The sizes, counts and indices of the partitioner are JavaScript numbers
    that hold integers, each given by its value in [Z].  A number is a
    binary64 float with 53 significant bits: an integer below 2^53 in
    absolute value is a number as it stands, a larger one only when its low
    bits are zero.  Comparisons and the remainder are exact on numbers; a sum
    and a quotient are rounded to the nearest number, a tie going to the
    even mantissa.  The arguments of a function stand for numbers: integers
    that binary64 has.  Numbers that are no integers (fractions, [NaN], the
    infinities) are outside the embedding. *)

(** The number nearest to the ratio [num / den], for [0 < den <= num]: its
    mantissa [m], with [2^52 <= m <= 2^53], and its exponent [e]; the number
    is [m * 2^e].  The mantissa is the quotient of the ratio scaled into
    [2^52 .. 2^53), moved up by one when the remainder is above the half,
    or is the half and the quotient is odd. *)
Definition nearest (num den : Z) : Z * Z :=
  let e := Z.log2 (num / den) - 52 in
  let '(n, d) := if 0 <=? e then (num, den * 2 ^ e) else (num * 2 ^ (- e), den) in
  let m := n / d in
  let r := n `mod` d in
  let up := (d <? 2 * r) || ((d =? 2 * r) && Z.odd m) in
  (if up then m + 1 else m, e).

(** [a / b] on numbers, for [0 < b <= a]. *)
Definition divideNumbers (a b : Z) : Z * Z := nearest a b.

(** [Math.floor] of the number [m * 2^e]. *)
Definition Math_floor (x : Z * Z) : Z :=
  let '(m, e) := x in if 0 <=? e then m * 2 ^ e else m / 2 ^ (- e).

(** The number to which an integer result is rounded. *)
Definition roundDouble (x : Z) : Z :=
  if x =? 0 then 0 else Z.sgn x * Math_floor (nearest (Z.abs x) 1).

(** [a + b] on numbers: the sum, rounded.  A result that rounds to 2^1024 or
    beyond is [Infinity], which the embedding does not follow. *)
Definition addNumbers (a b : Z) : Result Z :=
  let sum := roundDouble (a + b) in
  if Z.abs sum <? 2 ^ 1024 then Ok sum else Throw (OutsideFragment "Infinity").

(** A number as a template literal writes it ([Number.prototype.toString]).
    The digits are those of the decimal with the fewest significant digits
    that still rounds to the number, the nearest one if there are two; for
    an integer below 2^53 that is the integer itself.  Up to 21 digits the
    decimal is written out, beyond that in exponent notation. *)
Definition decimalDigits (x : Z) : Z := Z.of_nat (String.length (pretty x)).

(** The decimal with [k] significant digits that rounds to [x], if there is
    one: the multiple of [10^(n - k)] just below [x] or the one just above,
    for [x] of [n] digits. *)
Definition shortestAt (x k : Z) : option Z :=
  let p := 10 ^ (decimalDigits x - k) in
  let s := x / p in
  let lo := s * p in
  let hi := (s + 1) * p in
  match bool_decide (roundDouble lo = x), bool_decide (roundDouble hi = x) with
  | true, true =>
      Some (if x - lo <? hi - x then lo
            else if hi - x <? x - lo then hi
            else if Z.even s then lo else hi)
  | true, false => Some lo
  | false, true => Some hi
  | false, false => None
  end.

Fixpoint shortestFrom (x k : Z) (fuel : nat) : Z :=
  match fuel with
  | O => x
  | S fuel' =>
      match shortestAt x k with
      | Some v => v
      | None => shortestFrom x (k + 1) fuel'
      end
  end.

Definition shortestDecimal (x : Z) : Z :=
  shortestFrom x 1 (Z.to_nat (decimalDigits x)).

Fixpoint dropZeros (fuel : nat) (v : Z) : Z :=
  match fuel with
  | O => v
  | S fuel' => if v `mod` 10 =? 0 then dropZeros fuel' (v / 10) else v
  end.

Definition numberToString (x : Z) : string :=
  if x =? 0 then "0"
  else
    let v := shortestDecimal (Z.abs x) in
    let n := decimalDigits v in
    let text :=
      if n <=? 21 then pretty v
      else
        match pretty (dropZeros (Z.to_nat n) v) with
        | String d rest =>
            String d (if bool_decide (rest = "") then "" else "." +:+ rest)
            +:+ "e+" +:+ pretty (n - 1)
        | EmptyString => ""
        end in
    if x <? 0 then "-" +:+ text else text.

(** [new Array (arrayLength).fill (value)].  An array length is an integer
    from 0 to 2^32 - 1; the constructor throws a [RangeError] on any other
    number (its message differs between engines and is not recorded). *)
Definition newArrayFilled {A} (arrayLength : Z) (value : A) : Result (list A) :=
  if bool_decide (0 ≤ arrayLength < 2 ^ 32)
  then Ok (replicate (Z.to_nat arrayLength) value)
  else Throw RangeError.

(** ** upload.ts: the partitioner *)

Record Part : Type := mkPart { start : Z; end_ : Z }.

Definition partSize (p : Part) : Z := end_ p - start p.

(** [arr[k]].  Inside the array this is the element; outside it JavaScript
    yields [undefined], and what follows depends on the use, given here as
    [missing]. *)
Definition readAt {A} (missing : Exn) (arr : list A) (k : Z) : Result A :=
  if bool_decide (0 ≤ k) then
    match arr !! Z.to_nat k with
    | Some x => Ok x
    | None => Throw missing
    end
  else Throw missing.

(** [arr[k] += x]: read, add, write back in place.  Adding to [undefined]
    gives [NaN]. *)
Definition addAt (arr : list Z) (k x : Z) : Result (list Z) :=
  v ← readAt NotANumber arr k;
  sum ← addNumbers v x;
  Ok (<[Z.to_nat k := sum]> arr).

Definition assignChunk (partCount chunkSize : Z) (i : Z) (partSizes : list Z)
  : Result (list Z) :=
  addAt partSizes (Z.rem i partCount) chunkSize.

Definition pushPart (partSizes : list Z) (i : Z) (st : list Part * Z)
  : Result (list Part * Z) :=
  let '(parts, lastBoundary) := st in
  size ← readAt NotANumber partSizes i;
  sum ← addNumbers lastBoundary size;
  let parts := parts ++ [ {| start := lastBoundary; end_ := sum |} ] in
  p ← readAt (TypeError "Cannot read properties of undefined") parts i;
  Ok (parts, end_ p).

Definition splitSizeIntoChunkAlignedParts (totalSize partCount chunkSize : Z)
  : Result (list Part) :=
  when (partCount <? 1)
    (throwValidationError "partCount" "parameter" "greater than or equal to 1");;
  when (chunkSize <? 1)
    (throwValidationError "chunkSize" "parameter" "greater than or equal to 1");;
  when (totalSize <=? chunkSize)
    (throwValidationError "totalSize" "parameter"
       ("greater than the size of a chunk ('" +:+ numberToString chunkSize
        +:+ "')"));;
  partSizes ← newArrayFilled partCount 0;
  let numFullChunks := Math_floor (divideNumbers totalSize chunkSize) in
  (* The counter [i] cannot pass 2^53, where [i++] rounds back to 2^53:
     with more chunks than that the loop of the program does not end. *)
  when (2 ^ 53 <? numFullChunks) (Throw (OutsideFragment "a loop without end"));;
  partSizes ← forRange 0 numFullChunks (assignChunk partCount chunkSize) partSizes;
  let leftover := Z.rem totalSize chunkSize in
  partSizes ← (if 0 <? leftover
               then addAt partSizes (Z.min numFullChunks (partCount - 1)) leftover
               else Ok partSizes);
  st ← forRange 0 partCount (pushPart partSizes) ([], 0);
  Ok (fst st).

(** *** Vocabulary of the partitioner's properties *)

Definition otherThanValidation (e : Exn) : Prop :=
  match e with ValidationError _ _ _ => False | _ => True end.

Definition sumZ (l : list Z) : Z := foldr Z.add 0 l.

(** How many of the chunk indices [0 .. n-1] the round robin
    [partSizes[i % partCount] += chunkSize] sends to bucket [k]. *)
Fixpoint roundRobinCount (partCount k : Z) (n : nat) : Z :=
  match n with
  | O => 0
  | S n' =>
      roundRobinCount partCount k n'
      + (if bool_decide (Z.rem (Z.of_nat n') partCount = k) then 1 else 0)
  end.

(** The bucket that receives the leftover. *)
Definition leftoverIndex (totalSize partCount chunkSize : Z) : Z :=
  Z.min (totalSize / chunkSize) (partCount - 1).

(** The bucket sizes the algorithm is meant to reach: the round-robin share
    of whole chunks, plus the leftover in one bucket. *)
Definition bucketSize (totalSize partCount chunkSize : Z) (k : Z) : Z :=
  chunkSize * roundRobinCount partCount k (Z.to_nat (totalSize / chunkSize))
  + (if bool_decide (k = leftoverIndex totalSize partCount chunkSize)
     then totalSize `mod` chunkSize else 0).

(** Ranges laid out one after the other from offset 0. *)
Definition rangesOf (sizes : list Z) : list Part :=
  (λ i, mkPart (sumZ (take i sizes)) (sumZ (take (S i) sizes))) <$> seq 0 (length sizes).

(** ** upload.ts: options and the choice between the two upload paths *)

(** [1 << 22] is a 32-bit shift; the product stays far below 2^53. *)
Definition TUS_CHUNK_SIZE : Z := Z.shiftl 1 22 * 10.
Definition DEFAULT_TUS_CHUNK_SIZE_MULTIPLIER : Z := 3.
Definition DEFAULT_TUS_PARALLEL_UPLOADS : Z := 2.
Definition DEFAULT_TUS_RETRY_DELAYS : list Z :=
  [0; 5000; 15000; 60000; 300000; 600000].
Definition DEFAULT_TUS_STAGGER_PERCENT : Z := 50.
Definition PORTAL_FILE_FIELD_NAME : string := "file".

(** The upload fields of the resolved options object ([opts]). *)
Record UploadOptions : Type := {
  endpointUpload : string;
  endpointDirectoryUpload : string;
  endpointLargeUpload : string;
  customFilename : string;
  chunkSizeMultiplier : Z;
  largeFileSize : Z;
  numParallelUploads : Z;
  staggerPercent : option Z;
  retryDelays : list Z
}.

(** A [CustomUploadOptions] object: a field is [None] when the object has no
    such property. *)
Record CustomUploadOptions : Type := {
  endpointUpload' : option string;
  endpointDirectoryUpload' : option string;
  endpointLargeUpload' : option string;
  customFilename' : option string;
  chunkSizeMultiplier' : option Z;
  largeFileSize' : option Z;
  numParallelUploads' : option Z;
  staggerPercent' : option (option Z);
  retryDelays' : option (list Z)
}.

Definition DEFAULT_UPLOAD_OPTIONS : UploadOptions := {|
  endpointUpload := "/s5/upload";
  endpointDirectoryUpload := "/s5/upload/directory";
  endpointLargeUpload := "/s5/upload/tus";
  customFilename := "";
  chunkSizeMultiplier := DEFAULT_TUS_CHUNK_SIZE_MULTIPLIER;
  largeFileSize := TUS_CHUNK_SIZE;
  numParallelUploads := DEFAULT_TUS_PARALLEL_UPLOADS;
  staggerPercent := Some DEFAULT_TUS_STAGGER_PERCENT;
  retryDelays := DEFAULT_TUS_RETRY_DELAYS
|}.

(** [{ ...base, ...custom }]: the properties of [custom] win. *)
Definition spread (base : UploadOptions) (custom : CustomUploadOptions)
  : UploadOptions := {|
  endpointUpload := default (endpointUpload base) (endpointUpload' custom);
  endpointDirectoryUpload :=
    default (endpointDirectoryUpload base) (endpointDirectoryUpload' custom);
  endpointLargeUpload :=
    default (endpointLargeUpload base) (endpointLargeUpload' custom);
  customFilename := default (customFilename base) (customFilename' custom);
  chunkSizeMultiplier :=
    default (chunkSizeMultiplier base) (chunkSizeMultiplier' custom);
  largeFileSize := default (largeFileSize base) (largeFileSize' custom);
  numParallelUploads :=
    default (numParallelUploads base) (numParallelUploads' custom);
  staggerPercent := default (staggerPercent base) (staggerPercent' custom);
  retryDelays := default (retryDelays base) (retryDelays' custom)
|}.

(** Spreading an optional argument: [...undefined] adds nothing. *)
Definition spreadOpt (base : UploadOptions) (custom : option CustomUploadOptions)
  : UploadOptions :=
  match custom with
  | Some c => spread base c
  | None => base
  end.

(** [{}], and an options argument that was left out. *)
Definition noCustomOptions : CustomUploadOptions := {|
  endpointUpload' := None;
  endpointDirectoryUpload' := None;
  endpointLargeUpload' := None;
  customFilename' := None;
  chunkSizeMultiplier' := None;
  largeFileSize' := None;
  numParallelUploads' := None;
  staggerPercent' := None;
  retryDelays' := None
|}.

(** A resolved options object passed on where custom options are expected:
    every property is present. *)
Definition asCustom (opts : UploadOptions) : CustomUploadOptions := {|
  endpointUpload' := Some (endpointUpload opts);
  endpointDirectoryUpload' := Some (endpointDirectoryUpload opts);
  endpointLargeUpload' := Some (endpointLargeUpload opts);
  customFilename' := Some (customFilename opts);
  chunkSizeMultiplier' := Some (chunkSizeMultiplier opts);
  largeFileSize' := Some (largeFileSize opts);
  numParallelUploads' := Some (numParallelUploads opts);
  staggerPercent' := Some (staggerPercent opts);
  retryDelays' := Some (retryDelays opts)
|}.

Record File : Type := { fileName : string; fileSize : Z; fileType : string }.

(** The part of the client object the upload functions read. *)
Record S5Client : Type := { customOptions : CustomUploadOptions }.

(** One [FormData.append (name, value, filename?)]. *)
Record FormEntry : Type := {
  entryName : string;
  entryValue : File;
  entryFilename : option string
}.

(** The request descriptor handed to [this.executeRequest]. *)
Record RequestConfig : Type := {
  requestOptions : UploadOptions;
  endpointPath : string;
  method : string;
  data : list FormEntry
}.

Record AxiosResponse : Type := { dataCid : string }.

(** The call [uploadFile] returns the result of. *)
Inductive UploadCall : Type :=
| UploadSmallFile (file : File) (opts : UploadOptions)
| UploadLargeFile (file : File) (opts : UploadOptions).

Definition uploadFile (this : S5Client) (file : File)
    (customOptions' : option CustomUploadOptions) : UploadCall :=
  let opts :=
    spreadOpt (spread DEFAULT_UPLOAD_OPTIONS (customOptions this)) customOptions' in
  if fileSize file <? largeFileSize opts * chunkSizeMultiplier opts
  then UploadSmallFile file opts
  else UploadLargeFile file opts.

Section SmallUpload.
(** Collaborators: the MIME type lookup of [utils/file.ts] and the
    transport behind [this.executeRequest]. *)
Variable getFileMimeType : File → string.
Variable executeRequest : RequestConfig → Result AxiosResponse.

Definition ensureFileObjectConsistency (file : File) : File :=
  {| fileName := fileName file;
     fileSize := fileSize file;
     fileType := getFileMimeType file |}.

Definition uploadSmallFileRequest (this : S5Client) (file : File)
    (customOptions' : option CustomUploadOptions) : Result AxiosResponse :=
  let opts :=
    spreadOpt (spread DEFAULT_UPLOAD_OPTIONS (customOptions this)) customOptions' in
  let file := ensureFileObjectConsistency file in
  (* [if (opts.customFilename)]: a string is truthy unless it is empty. *)
  let formData :=
    if negb (bool_decide (customFilename opts = ""))
    then [ {| entryName := PORTAL_FILE_FIELD_NAME; entryValue := file;
              entryFilename := Some (customFilename opts) |} ]
    else [ {| entryName := PORTAL_FILE_FIELD_NAME; entryValue := file;
              entryFilename := None |} ] in
  response ← executeRequest
    {| requestOptions := opts;
       endpointPath := endpointUpload opts;
       method := "post";
       data := formData |};
  Ok response.

Definition uploadSmallFile (this : S5Client) (file : File)
    (customOptions' : UploadOptions) : Result string :=
  response ← uploadSmallFileRequest this file (Some (asCustom customOptions'));
  Ok (dataCid response).

(** The small path of [uploadFile]: the call it returns, carried out. *)
Definition runUploadCall (this : S5Client)
    (uploadLargeFile : File → UploadOptions → Result string)
    (call : UploadCall) : Result string :=
  match call with
  | UploadSmallFile file opts => uploadSmallFile this file opts
  | UploadLargeFile file opts => uploadLargeFile file opts
  end.
End SmallUpload.

(** ** Strings *)

Definition code (c : ascii) : nat := nat_of_ascii c.

Definition inRange (lo hi : nat) (c : ascii) : bool :=
  ((lo <=? code c) && (code c <=? hi))%nat.

Definition isAsciiUpper : ascii → bool := inRange 65 90.
Definition isAsciiLower : ascii → bool := inRange 97 122.
Definition isDigit : ascii → bool := inRange 48 57.
Definition isAsciiAlpha (c : ascii) : bool := isAsciiUpper c || isAsciiLower c.
Definition isAsciiAlnum (c : ascii) : bool := isAsciiAlpha c || isDigit c.

Definition isChar (c d : ascii) : bool := bool_decide (c = d).

Fixpoint mapString (f : ascii → ascii) (s : string) : string :=
  match s with
  | EmptyString => EmptyString
  | String c s' => String (f c) (mapString f s')
  end.

Fixpoint allChars (f : ascii → bool) (s : string) : bool :=
  match s with
  | EmptyString => true
  | String c s' => f c && allChars f s'
  end.

(** The longest prefix of characters that satisfy [f], and the rest. *)
Fixpoint spanChars (f : ascii → bool) (s : string) : string * string :=
  match s with
  | EmptyString => (EmptyString, EmptyString)
  | String c s' =>
      if f c then let '(a, b) := spanChars f s' in (String c a, b)
      else (EmptyString, s)
  end.

Fixpoint dropWhileChars (f : ascii → bool) (s : string) : string :=
  match s with
  | EmptyString => EmptyString
  | String c s' => if f c then dropWhileChars f s' else s
  end.

(** [s] without the prefix [p], when [s] starts with [p]. *)
Fixpoint stripPrefix (p s : string) : option string :=
  match p, s with
  | EmptyString, _ => Some s
  | String a p', String b s' => if bool_decide (a = b) then stripPrefix p' s' else None
  | String _ _, EmptyString => None
  end.

(** [s] without the suffix [q], when [s] ends with [q]. *)
Fixpoint stripSuffix (q s : string) : option string :=
  if bool_decide (s = q) then Some EmptyString
  else match s with
       | EmptyString => None
       | String c s' => String c <$> stripSuffix q s'
       end.

(** [s.startsWith (p)] and [s.endsWith (q)]. *)
Definition startsWith (s p : string) : bool := bool_decide (is_Some (stripPrefix p s)).
Definition endsWith (s q : string) : bool := bool_decide (is_Some (stripSuffix q s)).

(** [s.includes (sub)]. *)
Fixpoint includes (s sub : string) : bool :=
  startsWith s sub
  || match s with
     | EmptyString => false
     | String _ s' => includes s' sub
     end.

(** [s.toLowerCase ()] on code units below 256: the letters A-Z and the
    capital letters of Latin-1 (U+00C0-U+00DE without the multiplication
    sign) move up by 32. *)
Definition toLowerChar (c : ascii) : ascii :=
  if isAsciiUpper c || (inRange 192 222 c && negb (code c =? 215)%nat)
  then ascii_of_nat (code c + 32)
  else c.
Definition toLowerCase : string → string := mapString toLowerChar.

(** ASCII lowercasing, as the URL Standard applies it to schemes and hosts. *)
Definition asciiLowerChar (c : ascii) : ascii :=
  if isAsciiUpper c then ascii_of_nat (code c + 32) else c.
Definition asciiLower : string → string := mapString asciiLowerChar.

(** *** utils/string.ts *)

(** Modelled from the spec: [trimSuffix] of [utils/string.ts], which is not
    part of the sources at hand.  The specification has it remove trailing
    occurrences of the suffix: without a limit until none is left ("result
    never ends in [/]"), with a limit at most that many ("remove at most one
    trailing occurrence of [portalHost]").  The string bounds the number of
    rounds. *)
Fixpoint trimSuffixLoop (fuel : nat) (str suffix : string) (limit : option nat)
  : string :=
  match fuel with
  | O => str
  | S fuel' =>
      match stripSuffix suffix str, limit with
      | None, _ => str
      | Some _, Some O => str
      | Some str', Some (S limit') => trimSuffixLoop fuel' str' suffix (Some limit')
      | Some str', None => trimSuffixLoop fuel' str' suffix None
      end
  end.

Definition trimSuffix (str suffix : string) (limit : option nat) : string :=
  trimSuffixLoop (S (String.length str)) str suffix limit.

(** Modelled from the spec: [trimForwardSlash] of [utils/string.ts], which is
    not part of the sources at hand.  The specification has it strip the
    leading and the trailing slashes of a string ("trim-slashes", "strips
    leading/trailing slashes"). *)
Definition trimForwardSlash (str : string) : string :=
  dropWhileChars (isChar "/") (trimSuffix str "/" None).

(** Modelled from the spec: [trimUriPrefix] of [utils/string.ts], which is
    not part of the sources at hand.  The specification has it strip the
    given scheme prefix from the front of a string that carries it
    ("stripping any [http://] prefix the caller supplied", "strip a known
    CID-scheme prefix"). *)
Definition trimUriPrefix (str prefix : string) : string :=
  match stripPrefix prefix str with
  | Some rest => rest
  | None => str
  end.

(** *** Regular expressions

    The fragment of JavaScript regular expressions that
    [/^https?:(\/\/)?/i] needs: characters, sequence and the greedy [?],
    matched by backtracking from the start of the input. *)

Inductive Regex : Type :=
| RChar (c : ascii)
| RSeq (r1 r2 : Regex)
| ROpt (r : Regex).

(** Canonicalisation under the [i] flag.  A code unit from 128 on never
    canonicalises to an ASCII one, and the patterns here are ASCII. *)
Definition canonicalize (ignoreCase : bool) (c : ascii) : ascii :=
  if ignoreCase && isAsciiLower c then ascii_of_nat (code c - 32) else c.

Fixpoint matchAt (ignoreCase : bool) (r : Regex) (s : string)
    (k : string → bool) : bool :=
  match r with
  | RChar c =>
      match s with
      | String d s' =>
          bool_decide (canonicalize ignoreCase c = canonicalize ignoreCase d)
          && k s'
      | EmptyString => false
      end
  | RSeq r1 r2 => matchAt ignoreCase r1 s (λ s', matchAt ignoreCase r2 s' k)
  | ROpt r' => matchAt ignoreCase r' s k || k s
  end.

(** [/^r/.test (s)]. *)
Definition testAtStart (ignoreCase : bool) (r : Regex) (s : string) : bool :=
  matchAt ignoreCase r s (λ _, true).

(** [str.split (/\/(.+)/)] destructured into its first two elements.  The
    pattern matches at the first slash that a character other than a line
    terminator follows; the first element is the text before that slash and
    the second is the capture, which runs up to the next line terminator.
    Without a match the array has one element and the second is
    [undefined]. *)
Definition isLineTerminator (c : ascii) : bool :=
  (code c =? 10)%nat || (code c =? 13)%nat.

Fixpoint splitSlashRest (s : string) : string * option string :=
  match s with
  | EmptyString => (EmptyString, None)
  | String c s' =>
      let next :=
        match s' with
        | String d _ => negb (isLineTerminator d)
        | EmptyString => false
        end in
      if isChar "/" c && next
      then (EmptyString, Some (fst (spanChars (λ d, negb (isLineTerminator d)) s')))
      else let '(a, b) := splitSlashRest s' in (String c a, b)
  end.

(** ** The URL class

    [new URL], the [hostname] and [pathname] accessors and [toString] belong
    to the platform.  The embedding follows the URL Standard on a fragment:
    input of printable ASCII, scheme [http] or [https], a host of letters,
    digits, [-] and [.], an optional port, and a path over unreserved and
    sub-delimiter characters without dot segments.  On that fragment the
    parser lowercases scheme and host, accepts any number of slashes after
    [http:] or [https:], and serialises without change.  Input without a
    scheme makes the constructor throw a [TypeError], as it does on the
    platform.  Whatever else lies outside the fragment (credentials, query
    and fragment, percent-encoding, IPv4 and IPv6 hosts, IDNA labels, empty
    host labels, default or padded ports) is reported as [OutsideFragment],
    never guessed at. *)

Record URL : Type := {
  protocol : string;
  hostname : string;
  port : string;
  pathname : string
}.

Definition isPrintable : ascii → bool := inRange 33 126.

Definition isHostChar (c : ascii) : bool :=
  isAsciiAlnum c || isChar "-" c || isChar "." c.

Definition isSchemeChar (c : ascii) : bool :=
  isAsciiAlnum c || isChar "+" c || isChar "-" c || isChar "." c.

Definition isPathChar (c : ascii) : bool :=
  isAsciiAlnum c
  || includes "-._~!$&'()*+,;=:@/" (String c EmptyString).

(** The text after the last dot. *)
Fixpoint lastLabel (s : string) : string :=
  match s with
  | EmptyString => EmptyString
  | String c s' =>
      if includes s' "." then lastLabel s'
      else if isChar "." c then s' else s
  end.

Definition startsWithDigit (s : string) : bool :=
  match s with
  | String c _ => isDigit c
  | EmptyString => false
  end.

(** A host the embedding parses: not empty, host characters only, no empty
    label, no label that could be an IDNA A-label, and a last label that
    does not start with a digit (the standard reads such hosts as IPv4
    addresses). *)
Definition hostInFragment (h : string) : bool :=
  negb (bool_decide (h = ""))
  && allChars isHostChar h
  && negb (includes ("." +:+ h +:+ ".") "..")
  && negb (includes (asciiLower h) "xn--")
  && negb (startsWithDigit (lastLabel h)).

Fixpoint digitsValue (acc : N) (s : string) : N :=
  match s with
  | EmptyString => acc
  | String c s' => digitsValue (acc * 10 + (N.of_nat (code c) - 48)) s'
  end%N.

(** A port the embedding keeps as written: 1 to 5 digits without a leading
    zero, at most 65535 and not the default port of the scheme. *)
Definition portInFragment (scheme port : string) : bool :=
  allChars isDigit port
  && negb (bool_decide (port = ""))
  && negb (startsWith port "0")
  && (String.length port <=? 5)%nat
  && (digitsValue 0 port <=? 65535)%N
  && negb (bool_decide (scheme = "http" ∧ port = "80"))
  && negb (bool_decide (scheme = "https" ∧ port = "443")).

(** A path the embedding keeps as written. *)
Definition pathInFragment (p : string) : bool :=
  startsWith p "/"
  && allChars isPathChar p
  && negb (includes (p +:+ "/") "/./")
  && negb (includes (p +:+ "/") "/../").

(** The scheme state of the parser: a letter, then letters, digits, [+],
    [-] and [.], then a colon. *)
Definition scanScheme (input : string) : option (string * string) :=
  match input with
  | String c _ =>
      if isAsciiAlpha c then
        match spanChars isSchemeChar input with
        | (scheme, String ":" rest) => Some (asciiLower scheme, rest)
        | _ => None
        end
      else None
  | EmptyString => None
  end.

Definition isSlash (c : ascii) : bool := isChar "/" c || isChar "\" c.

Definition parsePort (scheme rest : string) : Result (string * string) :=
  match rest with
  | String ":" rest' =>
      let '(port, rest'') := spanChars isDigit rest' in
      if portInFragment scheme port then Ok (port, rest'')
      else Throw (OutsideFragment "port")
  | _ => Ok ("", rest)
  end.

Definition parsePath (rest : string) : Result string :=
  if bool_decide (rest = "") then Ok "/"
  else if pathInFragment rest then Ok rest
  else Throw (OutsideFragment "path").

(** [new URL (input)] *)
Definition URL_new (input : string) : Result URL :=
  if negb (allChars isPrintable input) then Throw (OutsideFragment "input")
  else
    match scanScheme input with
    | None => Throw (TypeError "Invalid URL")
    | Some (scheme, rest) =>
        if bool_decide (scheme = "http" ∨ scheme = "https") then
          let rest := dropWhileChars isSlash rest in
          let '(host, rest) := spanChars isHostChar rest in
          if hostInFragment host then
            '(port, rest) ← parsePort scheme rest;
            path ← parsePath rest;
            Ok {| protocol := scheme +:+ ":";
                  hostname := asciiLower host;
                  port := port;
                  pathname := path |}
          else Throw (OutsideFragment "host")
        else Throw (OutsideFragment "scheme")
    end.

(** [url.hostname = value] *)
Definition URL_set_hostname (url : URL) (value : string) : Result URL :=
  if hostInFragment value then
    Ok {| protocol := protocol url;
          hostname := asciiLower value;
          port := port url;
          pathname := pathname url |}
  else Throw (OutsideFragment "host").

(** [url.pathname = value] *)
Definition URL_set_pathname (url : URL) (value : string) : Result URL :=
  let path := if startsWith value "/" then value else "/" +:+ value in
  if pathInFragment path then
    Ok {| protocol := protocol url;
          hostname := hostname url;
          port := port url;
          pathname := path |}
  else Throw (OutsideFragment "path").

(** The port as the serialiser writes it after the host. *)
Definition portPart (port : string) : string :=
  if bool_decide (port = "") then "" else ":" +:+ port.

(** [url.toString ()] *)
Definition URL_toString (url : URL) : string :=
  protocol url +:+ "//" +:+ hostname url +:+ portPart (port url) +:+ pathname url.

(** [try { body } catch { handler }].  A [TypeError] or a validation error
    reaches the handler.  When the body left the fragment the embedding
    cannot tell whether it threw, and neither runs nor skips the handler. *)
Definition tryCatch {A} (body : Result A) (handler : Exn → Result A) : Result A :=
  match body with
  | Ok a => Ok a
  | Throw (OutsideFragment what) => Throw (OutsideFragment what)
  | Throw e => handler e
  end.

(** ** utils/url.ts *)

Definition DEFAULT_S5_PORTAL_URL : string := "https://localhost:5522".
Definition URI_HANDSHAKE_PREFIX : string := "hns://".
Definition URI_S5_PREFIX : string := "s5://".

Definition addPath (url path : string) : Result string :=
  let path := trimForwardSlash path in
  str ← (if bool_decide (url = "localhost")
         then Ok ("localhost/" +:+ path)
         else urlObj ← URL_new url;
              urlObj ← URL_set_pathname urlObj path;
              Ok (URL_toString urlObj));
  Ok (trimSuffix str "/" None).

Definition addUrlSubdomain (url subdomain : string) : Result string :=
  urlObj ← URL_new url;
  urlObj ← URL_set_hostname urlObj (subdomain +:+ "." +:+ hostname urlObj);
  let str := URL_toString urlObj in
  Ok (trimSuffix str "/" None).

Definition ensurePrefix (str prefix : string) : string :=
  if negb (startsWith str prefix) then prefix +:+ str else str.

Definition ensureUrl (url : string) : string :=
  if startsWith url "http://" then url
  else ensurePrefix url "https://".

(** [/^https?:(\/\/)?/i] *)
Definition schemePattern : Regex :=
  RSeq (RChar "h") (RSeq (RChar "t") (RSeq (RChar "t") (RSeq (RChar "p")
    (RSeq (ROpt (RChar "s")) (RSeq (RChar ":")
      (ROpt (RSeq (RChar "/") (RChar "/")))))))).

Definition ensureUrlPrefix (url : string) : string :=
  if bool_decide (url = "localhost") then "http://localhost/"
  else if negb (testAtStart true schemePattern url) then "https://" +:+ url
  else url.

(** [args.reduce ((acc, cur) => f (acc, cur))], without an initial value. *)
Definition reduce {A} (f : A → A → A) (args : list A) : Result A :=
  match args with
  | [] => Throw (TypeError "Reduce of empty array with no initial value")
  | a :: rest => Ok (foldl f a rest)
  end.

Section MakeUrl.
(** The [url-join] package. *)
Variable urljoin : string → string → string.

Definition makeUrl (args : list string) : Result string :=
  when (bool_decide (length args = 0%nat))
    (throwValidationError "args" "parameter" "non-empty");;
  url ← reduce (λ acc cur, urljoin acc cur) args;
  Ok (ensureUrl url).
End MakeUrl.

Definition getFullDomainUrlForPortal (portalUrl domain : string) : Result string :=
  let portalUrl := ensureUrlPrefix (trimUriPrefix portalUrl "http://") in
  let domain := trimUriPrefix domain URI_S5_PREFIX in
  let domain := trimForwardSlash domain in
  let '(domain, path) := splitSlashRest domain in
  url ← (if bool_decide (domain = "localhost")
         then Ok "localhost"
         else addUrlSubdomain portalUrl domain);
  match path with
  | Some path => if bool_decide (path = "") then Ok url else addPath url path
  | None => Ok url
  end.

Definition extractDomainForPortal (portalUrl fullDomain : string) : Result string :=
  '(fullDomain, path) ←
    tryCatch
      (fullDomainObj ← URL_new fullDomain;
       Ok (hostname fullDomainObj, Some (trimForwardSlash (pathname fullDomainObj))))
      (λ _,
       let fullDomain := trimForwardSlash fullDomain in
       let '(fullDomain, path) := splitSlashRest fullDomain in
       Ok (toLowerCase fullDomain, path));
  portalUrlObj ← URL_new (ensureUrlPrefix portalUrl);
  let portalDomain := trimForwardSlash (hostname portalUrlObj) in
  let domain := trimSuffix fullDomain portalDomain (Some 1%nat) in
  let domain := trimSuffix domain "." None in
  match path with
  | Some path =>
      if bool_decide (path = "") then Ok domain
      else Ok (domain +:+ "/" +:+ trimForwardSlash path)
  | None => Ok domain
  end.

(** *** Vocabulary of the URL properties *)

(** The specification's reading of [/^https?:(\/\/)?/i]: the string starts
    with [http:] or [https:] in any mix of cases (the two slashes may
    follow or not). *)
Definition schemePrefixed (s : string) : bool :=
  startsWith (asciiLower s) "http:" || startsWith (asciiLower s) "https:".

(** A lowercase host name of the fragment. *)
Definition plainHost (h : string) : bool :=
  allChars (λ c, negb (isAsciiUpper c)) h && hostInFragment h.

(** The serialisation of an origin: scheme, host and port. *)
Definition originString (scheme host port : string) : string :=
  scheme +:+ "://" +:+ host +:+ portPart port.

(** The portal URLs of the round trip with host name [h]: the strings that
    both functions read as a URL with that host name.  The extractor
    parses [ensureUrlPrefix (portalUrl)]; the builder first takes a leading
    [http://] off, and its URL must have no path, which would end up in the
    URL it builds.  The portal URLs as they are usually written are among
    them: [https://h], [http://h] and the bare host name [h], with or
    without a port and with or without a slash at the end, also in capital
    letters. *)
Definition portalFor (h : string) (portalUrl : string) : Prop :=
  (∃ u, URL_new (ensureUrlPrefix portalUrl) = Ok u ∧ hostname u = h)
  ∧ (∃ u, URL_new (ensureUrlPrefix (trimUriPrefix portalUrl "http://")) = Ok u
          ∧ hostname u = h ∧ pathname u = "/").

(** A path the round trip keeps: not empty, no slash at either end, and
    inside the fragment once the leading slash is put in front. *)
Definition plainPath (p : string) : bool :=
  negb (bool_decide (p = ""))
  && negb (startsWith p "/")
  && negb (endsWith p "/")
  && pathInFragment ("/" +:+ p).

(** ** utils/options.ts *)

(** A plain [Error] with its message, for code that throws one. *)
Inductive Outcome (A : Type) : Type :=
| Returned (a : A)
| Error (message : string).
Arguments Returned {A} a.
Arguments Error {A} message.

(** [obj[property] = value] on a plain object.  The name [__proto__] is the
    accessor that every plain object inherits: assigning to it never makes
    an own property. *)
Definition setProperty {V} (obj : gmap string V) (property : string) (value : V)
  : gmap string V :=
  if bool_decide (property = "__proto__") then obj else <[property := value]> obj.

(** The loop of [extractOptions] over the own enumerable properties of
    [model], in enumeration order.  An object is the finite map of its own
    properties; the properties [model] inherits are skipped by the first
    test of the loop and so are left out of the list. *)
Fixpoint extractOptionsLoop {V} (opts : gmap string V) (properties : list string)
    (result : gmap string V) : Outcome (gmap string V) :=
  match properties with
  | [] => Returned result
  | property :: rest =>
      match opts !! property with
      | None => Error ("Property '" +:+ property +:+ "' not found")
      | Some value => extractOptionsLoop opts rest (setProperty result property value)
      end
  end.

(** [extractOptions (opts, model)]; of [model] only the property names are
    read. *)
Definition extractOptions {V} (opts : gmap string V) (model : list string)
  : Outcome (gmap string V) :=
  extractOptionsLoop opts model ∅.

(** ** upload.ts: [numberToBuffer] *)

(** [ToInt32], which the shift operators apply to their left operand. *)
Definition toInt32 (v : Z) : Z := (v + 2 ^ 31) `mod` 2 ^ 32 - 2 ^ 31.

(** One round of the loop over the state [(view, lastIndex, value)].  A
    [Buffer] stores a number modulo 256, and [value >> 8] is the arithmetic
    shift of [ToInt32 (value)]. *)
Definition numberToBufferStep (st : list Z * Z * Z) (index : Z) : list Z * Z * Z :=
  let '(view, lastIndex, value) := st in
  let lastIndex := if bool_decide (Z.rem value 256 ≠ 0) then index else lastIndex in
  let view := <[Z.to_nat index := Z.rem value 256 `mod` 256]> view in
  let value := Z.shiftr (toInt32 value) 8 in
  (view, lastIndex, value).

(** [numberToBuffer (value)], local to [uploadLargeFileRequest]: the bytes of
    [view.subarray (0, lastIndex + 1)]. *)
Definition numberToBuffer (value : Z) : list Z :=
  let '(view, lastIndex, _) :=
    foldl numberToBufferStep (replicate 16 0, 15, value) (seqZ 0 16) in
  take (Z.to_nat (lastIndex + 1)) view.

(** The number a little-endian byte sequence stands for. *)
Definition littleEndian (bytes : list Z) : Z :=
  foldr (λ b acc, b + 256 * acc) 0 bytes.

(** * Properties *)

(** ** The partitioner *)

Example split_25_2_10 :
  splitSizeIntoChunkAlignedParts 25 2 10 = Ok [mkPart 0 10; mkPart 10 25].
Proof. reflexivity. Qed.

Example split_105_4_10 :
  splitSizeIntoChunkAlignedParts 105 4 10 =
  Ok [mkPart 0 30; mkPart 30 60; mkPart 60 80; mkPart 80 105].
Proof. vm_compute. reflexivity. Qed.

Example split_15_5_10 :
  splitSizeIntoChunkAlignedParts 15 5 10 =
  Ok [mkPart 0 10; mkPart 10 15; mkPart 15 15; mkPart 15 15; mkPart 15 15].
Proof. vm_compute. reflexivity. Qed.

Example split_rejects_partCount :
  splitSizeIntoChunkAlignedParts 25 0 10
  = Throw (ValidationError "partCount" "parameter" "greater than or equal to 1").
Proof. reflexivity. Qed.

Example split_rejects_chunkSize :
  splitSizeIntoChunkAlignedParts 25 2 0
  = Throw (ValidationError "chunkSize" "parameter" "greater than or equal to 1").
Proof. reflexivity. Qed.

Example split_rejects_totalSize :
  splitSizeIntoChunkAlignedParts 10 2 10
  = Throw (ValidationError "totalSize" "parameter"
             "greater than the size of a chunk ('10')").
Proof. vm_compute. reflexivity. Qed.

(** *** Loops *)

Lemma forLoop_inv {S} (P : Z → S → Prop) (body : Z → S → Result S) n i s :
  P i s →
  (∀ j t, i ≤ j < i + Z.of_nat n → P j t → ∃ t', body j t = Ok t' ∧ P (j + 1) t') →
  ∃ s', forLoop n i body s = Ok s' ∧ P (i + Z.of_nat n) s'.
Proof.
  revert i s. induction n as [|n IH]; intros i s Hs Hstep.
  - exists s. split; [done|]. by replace (i + Z.of_nat 0) with i by lia.
  - destruct (Hstep i s) as (t & Ht & HP); [lia|done|].
    destruct (IH (i + 1) t) as (s' & Hs' & HP'); [done| |].
    + intros j u Hj Hu. apply Hstep; [lia|done].
    + exists s'. split.
      * cbn [forLoop]. rewrite Ht. exact Hs'.
      * by replace (i + Z.of_nat (Datatypes.S n)) with (i + 1 + Z.of_nat n) by lia.
Qed.

Lemma forRange_inv {S} (P : Z → S → Prop) (body : Z → S → Result S) lo hi s :
  lo ≤ hi →
  P lo s →
  (∀ j t, lo ≤ j < hi → P j t → ∃ t', body j t = Ok t' ∧ P (j + 1) t') →
  ∃ s', forRange lo hi body s = Ok s' ∧ P hi s'.
Proof.
  intros Hle Hs Hstep. unfold forRange.
  destruct (forLoop_inv P body (Z.to_nat (hi - lo)) lo s) as (s' & Hs' & HP); [done| |].
  - intros j t Hj. apply Hstep. lia.
  - exists s'. split; [done|]. by replace hi with (lo + Z.of_nat (Z.to_nat (hi - lo))) by lia.
Qed.

(** *** Numbers below 2^53

    Below 2^53 nothing is rounded: a sum of integers is their sum and the
    floor of a quotient is the quotient of the integers. *)

Lemma roundDouble_exact x : Z.abs x < 2 ^ 53 → roundDouble x = x.
Proof.
  intros Hx. unfold roundDouble.
  destruct (x =? 0) eqn:H0; [apply Z.eqb_eq in H0; lia|].
  apply Z.eqb_neq in H0.
  assert (Ha : 0 < Z.abs x) by lia.
  assert (Hlog : Z.log2 (Z.abs x) < 53) by (by apply Z.log2_lt_pow2).
  unfold nearest. rewrite Z.div_1_r.
  set (e := Z.log2 (Z.abs x) - 52).
  assert (He : e ≤ 0) by (unfold e; lia).
  destruct (0 <=? e) eqn:Hle.
  - apply Z.leb_le in Hle. assert (e = 0) as -> by lia.
    change (1 * 2 ^ 0) with 1. rewrite Z.div_1_r, Z.mod_1_r, Z.mul_0_r.
    change (1 <? 0) with false. change (1 =? 0) with false. cbn [orb andb].
    cbn [Math_floor]. change (0 <=? 0) with true. cbn beta iota. lia.
  - apply Z.leb_gt in Hle.
    rewrite Z.div_1_r, Z.mod_1_r, Z.mul_0_r.
    change (1 <? 0) with false. change (1 =? 0) with false. cbn [orb andb].
    cbn [Math_floor]. rewrite (proj2 (Z.leb_gt 0 e)) by lia.
    rewrite Z.div_mul by (apply Z.pow_nonzero; lia). lia.
Qed.

Lemma floor_divide_exact a b :
  0 < b ≤ a → a < 2 ^ 53 → Math_floor (divideNumbers a b) = a / b.
Proof.
  intros Hb Ha. unfold divideNumbers, nearest.
  set (j := a / b).
  assert (Hj : 1 ≤ j) by (unfold j; apply Z.div_le_lower_bound; lia).
  pose proof (Z.div_mod a b ltac:(lia)) as Hdm. fold j in Hdm.
  pose proof (Z.mod_pos_bound a b ltac:(lia)) as Hrho.
  set (rho := a `mod` b) in *.
  pose proof (Z.log2_spec j ltac:(lia)) as [Hlo Hhi].
  set (k := Z.log2 j) in *.
  assert (Hk0 : 0 ≤ k) by apply Z.log2_nonneg.
  assert (Hk : k ≤ 52).
  { assert (j < 2 ^ 53) by nia.
    assert (k < 53); [|lia]. apply Z.log2_lt_pow2; lia. }
  destruct (0 <=? k - 52) eqn:Hle.
  - apply Z.leb_le in Hle. assert (k = 52) as Hk52 by lia.
    rewrite Hk52 in *. change (52 - 52) with 0. change (2 ^ 0) with 1.
    rewrite Z.mul_1_r.
    assert (b = 1) as -> by nia.
    rewrite Z.div_1_r, Z.mod_1_r, Z.mul_0_r.
    change (1 <? 0) with false. change (1 =? 0) with false. cbn [orb andb].
    cbn [Math_floor]. change (0 <=? 0) with true. cbn beta iota.
    change (2 ^ 0) with 1. unfold j. rewrite Z.div_1_r. lia.
  - apply Z.leb_gt in Hle.
    set (s := - (k - 52)).
    assert (Hs : 1 ≤ s) by (unfold s; lia).
    assert (Hpow : 0 < 2 ^ s) by (apply Z.pow_pos_nonneg; lia).
    cbn [Math_floor]. rewrite (proj2 (Z.leb_gt 0 (k - 52))) by lia. fold s.
    pose proof (Z.div_mod (a * 2 ^ s) b ltac:(lia)) as Hdm'.
    pose proof (Z.mod_pos_bound (a * 2 ^ s) b ltac:(lia)) as Hr.
    set (m := a * 2 ^ s / b) in *. set (r := (a * 2 ^ s) `mod` b) in *.
    assert (Hm : m / 2 ^ s = j).
    { unfold m. rewrite Z.div_div by lia.
      rewrite Z.div_mul_cancel_r by lia. done. }
    destruct ((b <? 2 * r) || ((b =? 2 * r) && Z.odd m)) eqn:Hup; [|done].
    assert (H2r : b ≤ 2 * r).
    { apply orb_prop in Hup as [H|H].
      - apply Z.ltb_lt in H. lia.
      - apply andb_prop in H as [H _]. apply Z.eqb_eq in H. lia. }
    (* m = j * 2^s + t with t < 2^s *)
    pose proof (Z.div_mod m (2 ^ s) ltac:(lia)) as Hmdm. rewrite Hm in Hmdm.
    pose proof (Z.mod_pos_bound m (2 ^ s) ltac:(lia)) as Ht.
    set (t := m `mod` 2 ^ s) in *.
    assert (Hsk : k + Z.succ s = 53) by (unfold s; lia).
    change (a / b) with j. clearbody j rho m r t k s.
    symmetry. apply (Z.div_unique _ _ _ (t + 1)); [|clear -Hmdm; lia].
    left. split; [lia|].
    destruct (decide (t + 1 < 2 ^ s)) as [|Hfull]; [done|]. exfalso.
    assert (Ht' : t = 2 ^ s - 1) by lia.
    (* then b >= 2^(s+1), and a >= 2^k * 2^(s+1) = 2^53 *)
    assert (Hb2 : 2 * 2 ^ s ≤ b) by nia.
    assert (H53 : 2 ^ k * (2 * 2 ^ s) = 2 ^ 53).
    { rewrite <-(Z.pow_succ_r 2 s) by lia. rewrite <-Z.pow_add_r by lia.
      by rewrite Hsk. }
    assert (2 ^ 53 ≤ a); [|lia].
    rewrite <-H53.
    assert (0 < 2 ^ k) by (apply Z.pow_pos_nonneg; lia).
    nia.
Qed.

Lemma addNumbers_exact a b : Z.abs (a + b) < 2 ^ 53 → addNumbers a b = Ok (a + b).
Proof.
  intros H. unfold addNumbers. rewrite roundDouble_exact by done.
  assert (2 ^ 53 < 2 ^ 1024) by (by apply Z.pow_lt_mono_r).
  by rewrite (proj2 (Z.ltb_lt _ _)) by lia.
Qed.

(** *** Sums and array accesses *)

Lemma sumZ_cons x l : sumZ (x :: l) = x + sumZ l.
Proof. reflexivity. Qed.

Lemma sumZ_app l1 l2 : sumZ (l1 ++ l2) = sumZ l1 + sumZ l2.
Proof.
  induction l1 as [|x l1 IH]; [done|].
  change ((x :: l1) ++ l2) with (x :: (l1 ++ l2)). rewrite !sumZ_cons. lia.
Qed.

Lemma sumZ_insert l i x y :
  l !! i = Some x → sumZ (<[i:=y]> l) = sumZ l - x + y.
Proof.
  revert i. induction l as [|a l IH]; intros [|i] H; try done.
  - injection H as ->. change (<[0%nat:=y]> (x :: l)) with (y :: l).
    rewrite !sumZ_cons. lia.
  - change (<[S i:=y]> (a :: l)) with (a :: <[i:=y]> l).
    rewrite !sumZ_cons, (IH i H). lia.
Qed.

Lemma sumZ_replicate_0 n : sumZ (replicate n 0) = 0.
Proof.
  induction n as [|n IH]; [done|].
  change (replicate (S n) 0) with (0 :: replicate n 0). rewrite sumZ_cons. lia.
Qed.

Lemma sumZ_nonneg l : (∀ x, x ∈ l → 0 ≤ x) → 0 ≤ sumZ l.
Proof.
  induction l as [|a l IH]; intros H; [done|].
  rewrite sumZ_cons.
  assert (0 ≤ a) by (apply H; left).
  assert (0 ≤ sumZ l) by (apply IH; intros x Hx; apply H; by right).
  lia.
Qed.

Lemma sumZ_take_S l i x :
  l !! i = Some x → sumZ (take (S i) l) = sumZ (take i l) + x.
Proof.
  intros H. rewrite (take_S_r _ _ _ H), sumZ_app, sumZ_cons. cbn. lia.
Qed.

Lemma sumZ_take_step l i :
  (∀ x, x ∈ l → 0 ≤ x) → sumZ (take i l) ≤ sumZ (take (S i) l).
Proof.
  intros Hl. destruct (l !! i) as [x|] eqn:Hx.
  - rewrite (sumZ_take_S _ _ _ Hx).
    assert (0 ≤ x) by (apply Hl; by eapply list_elem_of_lookup_2). lia.
  - apply lookup_ge_None in Hx. rewrite !take_ge by lia. lia.
Qed.

Lemma sumZ_take_mono l i j :
  (∀ x, x ∈ l → 0 ≤ x) → (i ≤ j)%nat → sumZ (take i l) ≤ sumZ (take j l).
Proof.
  intros Hl Hij. induction Hij as [|j Hij IH]; [lia|].
  pose proof (sumZ_take_step l j Hl). lia.
Qed.

Lemma readAt_Ok {A} missing (arr : list A) (k : Z) x :
  0 ≤ k → arr !! Z.to_nat k = Some x → readAt missing arr k = Ok x.
Proof.
  intros Hk Hx. unfold readAt. rewrite bool_decide_eq_true_2 by done. by rewrite Hx.
Qed.

(** *** Ranges laid out from sizes *)

Lemma length_rangesOf sizes : length (rangesOf sizes) = length sizes.
Proof. unfold rangesOf. by rewrite length_fmap, length_seq. Qed.

Lemma rangesOf_lookup sizes i p :
  rangesOf sizes !! i = Some p ↔
  (i < length sizes)%nat ∧
  p = mkPart (sumZ (take i sizes)) (sumZ (take (S i) sizes)).
Proof.
  unfold rangesOf. rewrite list_lookup_fmap. split.
  - intros H. destruct (seq 0 (length sizes) !! i) as [j|] eqn:Hj; [|done].
    apply lookup_seq in Hj as [-> ?]. cbn in H. injection H as <-. done.
  - intros [Hi ->]. by rewrite (lookup_seq_lt _ _ _ Hi).
Qed.

Lemma rangesOf_sizes sizes : partSize <$> rangesOf sizes = sizes.
Proof.
  apply list_eq. intros i. rewrite list_lookup_fmap.
  destruct (sizes !! i) as [x|] eqn:Hx.
  - assert (Hi : (i < length sizes)%nat) by (by eapply lookup_lt_Some).
    assert (Hp : rangesOf sizes !! i =
                 Some (mkPart (sumZ (take i sizes)) (sumZ (take (S i) sizes))))
      by (by apply rangesOf_lookup).
    rewrite Hp. cbn. unfold partSize. cbn.
    rewrite (sumZ_take_S _ _ _ Hx). f_equal. lia.
  - apply lookup_ge_None in Hx.
    assert (rangesOf sizes !! i = None) as ->; [|done].
    apply lookup_ge_None. by rewrite length_rangesOf.
Qed.

(** *** The two loops of [splitSizeIntoChunkAlignedParts] *)

Lemma roundRobinCount_bounds partCount k n :
  0 ≤ roundRobinCount partCount k n ≤ Z.of_nat n.
Proof.
  induction n as [|n IH]; cbn [roundRobinCount]; [lia|].
  destruct (bool_decide _); lia.
Qed.

Lemma bucketSize_nonneg totalSize partCount chunkSize k :
  1 ≤ chunkSize → 0 ≤ bucketSize totalSize partCount chunkSize k.
Proof.
  intros Hc. unfold bucketSize.
  pose proof (roundRobinCount_bounds partCount k (Z.to_nat (totalSize / chunkSize))).
  assert (0 ≤ totalSize `mod` chunkSize < chunkSize) by (apply Z.mod_pos_bound; lia).
  destruct (bool_decide _); nia.
Qed.

Lemma rem_in_range i partCount :
  0 ≤ i → 1 ≤ partCount → 0 ≤ Z.rem i partCount < partCount.
Proof. intros. rewrite Z.rem_mod_nonneg by lia. apply Z.mod_pos_bound. lia. Qed.

Lemma assign_loop partCount chunkSize n :
  1 ≤ partCount → 0 ≤ n → 0 ≤ chunkSize → chunkSize * n < 2 ^ 53 →
  ∃ sizes,
    forRange 0 n (assignChunk partCount chunkSize)
      (replicate (Z.to_nat partCount) 0) = Ok sizes
    ∧ length sizes = Z.to_nat partCount
    ∧ (∀ k : nat, (k < Z.to_nat partCount)%nat →
         sizes !! k =
         Some (chunkSize * roundRobinCount partCount (Z.of_nat k) (Z.to_nat n)))
    ∧ sumZ sizes = chunkSize * n.
Proof.
  intros Hpc Hn Hc Hexact.
  pose (P := λ (j : Z) (sizes : list Z),
    0 ≤ j
    ∧ length sizes = Z.to_nat partCount
    ∧ (∀ k : nat, (k < Z.to_nat partCount)%nat →
         sizes !! k =
         Some (chunkSize * roundRobinCount partCount (Z.of_nat k) (Z.to_nat j)))
    ∧ sumZ sizes = chunkSize * j).
  destruct (forRange_inv P (assignChunk partCount chunkSize) 0 n
              (replicate (Z.to_nat partCount) 0)) as (sizes & Hrun & HP); [done| | |].
  - unfold P. split; [done|]. split; [by rewrite length_replicate|]. split.
    + intros k Hk. rewrite lookup_replicate_2 by done.
      change (Z.to_nat 0) with 0%nat. cbn [roundRobinCount]. f_equal. lia.
    + rewrite sumZ_replicate_0. lia.
  - intros j sizes Hj (Hj0 & Hlen & Hcnt & Hsum).
    pose proof (rem_in_range j partCount Hj0 Hpc) as Hr.
    set (r := Z.rem j partCount) in *.
    assert (Hrk : (Z.to_nat r < Z.to_nat partCount)%nat) by lia.
    pose proof (Hcnt _ Hrk) as Hv.
    unfold assignChunk, addAt. fold r.
    assert (readAt NotANumber sizes r = Ok
              (chunkSize * roundRobinCount partCount r (Z.to_nat j))) as ->.
    { apply readAt_Ok; [lia|]. rewrite Hv. by rewrite Z2Nat.id by lia. }
    cbn [mbind Result_bind].
    rewrite addNumbers_exact.
    2:{ pose proof (roundRobinCount_bounds partCount r (Z.to_nat j)). nia. }
    cbn [mbind Result_bind]. eexists. split; [done|]. unfold P.
    split; [lia|]. split; [by rewrite length_insert|]. split.
    + intros k Hk.
      replace (Z.to_nat (j + 1)) with (S (Z.to_nat j)) by lia.
      cbn [roundRobinCount]. rewrite Z2Nat.id by lia. fold r.
      destruct (decide (k = Z.to_nat r)) as [->|Hne].
      * rewrite list_lookup_insert_eq by lia.
        rewrite Z2Nat.id by lia. rewrite bool_decide_eq_true_2 by done.
        f_equal. lia.
      * rewrite list_lookup_insert_ne by done. rewrite (Hcnt _ Hk).
        rewrite bool_decide_eq_false_2 by lia. f_equal. lia.
    + rewrite (sumZ_insert _ _ _ _ Hv), Hsum. rewrite Z2Nat.id by lia. lia.
  - exists sizes. destruct HP as (_ & ? & ? & ?). done.
Qed.

Lemma push_loop sizes :
  (∀ x, x ∈ sizes → 0 ≤ x) → sumZ sizes < 2 ^ 53 →
  ∃ lastBoundary,
    forRange 0 (Z.of_nat (length sizes)) (pushPart sizes) ([], 0)
    = Ok (rangesOf sizes, lastBoundary).
Proof.
  intros Hnonneg Hexact.
  pose (mk := λ i, mkPart (sumZ (take i sizes)) (sumZ (take (S i) sizes))).
  pose (P := λ (j : Z) (st : list Part * Z),
    0 ≤ j ∧ st.1 = mk <$> seq 0 (Z.to_nat j)
    ∧ st.2 = sumZ (take (Z.to_nat j) sizes)).
  destruct (forRange_inv P (pushPart sizes) 0 (Z.of_nat (length sizes)) ([], 0))
    as ([parts lb] & Hrun & _ & Hparts & _); [lia|done| |].
  - intros j [parts lb] Hj (Hj0 & Hparts & Hlb). cbn in Hparts, Hlb.
    destruct (lookup_lt_is_Some_2 sizes (Z.to_nat j)) as [x Hx]; [lia|].
    unfold pushPart.
    assert (readAt NotANumber sizes j = Ok x) as -> by (apply readAt_Ok; [lia|done]).
    cbn [mbind Result_bind].
    rewrite addNumbers_exact.
    2:{ rewrite Hlb, <-(sumZ_take_S _ _ _ Hx).
        pose proof (sumZ_take_mono sizes 0 (S (Z.to_nat j)) Hnonneg ltac:(lia)).
        pose proof (sumZ_take_mono sizes (S (Z.to_nat j)) (length sizes) Hnonneg
                      ltac:(lia)) as Hle.
        rewrite (take_ge sizes (length sizes)) in Hle by lia.
        change (sumZ (take 0 sizes)) with 0 in *. lia. }
    cbn [mbind Result_bind].
    assert (∀ missing, readAt missing (parts ++ [mkPart lb (lb + x)]) j
                       = Ok (mkPart lb (lb + x))) as ->.
    { intros missing. apply readAt_Ok; [lia|].
      rewrite lookup_app_r; rewrite Hparts, length_fmap, length_seq; [|lia].
      by rewrite Nat.sub_diag. }
    cbn. eexists. split; [done|]. unfold P. cbn.
    split; [lia|].
    replace (Z.to_nat (j + 1)) with (S (Z.to_nat j)) by lia.
    split.
    + rewrite seq_S, fmap_app, Hparts. cbn. f_equal. unfold mk.
      by rewrite (sumZ_take_S _ _ _ Hx), Hlb.
    + by rewrite (sumZ_take_S _ _ _ Hx), Hlb.
  - exists lb. rewrite Hrun. cbn in Hparts. rewrite Hparts, Nat2Z.id. done.
Qed.

(** *** The result on valid input *)

Lemma split_valid totalSize partCount chunkSize :
  1 ≤ partCount < 2 ^ 32 → 1 ≤ chunkSize → chunkSize < totalSize < 2 ^ 53 →
  ∃ sizes,
    splitSizeIntoChunkAlignedParts totalSize partCount chunkSize
    = Ok (rangesOf sizes)
    ∧ length sizes = Z.to_nat partCount
    ∧ (∀ k : nat, (k < Z.to_nat partCount)%nat →
         sizes !! k = Some (bucketSize totalSize partCount chunkSize (Z.of_nat k)))
    ∧ sumZ sizes = totalSize.
Proof.
  intros [Hpc Hpc32] Hc [Ht Ht53]. unfold splitSizeIntoChunkAlignedParts.
  rewrite (proj2 (Z.ltb_ge partCount 1)) by lia.
  rewrite (proj2 (Z.ltb_ge chunkSize 1)) by lia.
  rewrite (proj2 (Z.leb_gt totalSize chunkSize)) by lia.
  cbn [when mbind Result_bind].
  unfold newArrayFilled. rewrite bool_decide_eq_true_2 by lia.
  cbn [mbind Result_bind].
  rewrite floor_divide_exact by lia.
  set (n := totalSize / chunkSize).
  assert (Hn : 0 ≤ n) by (apply Z.div_pos; lia).
  assert (Hnt : chunkSize * n ≤ totalSize)
    by (unfold n; apply Z.mul_div_le; lia).
  rewrite (proj2 (Z.ltb_ge (2 ^ 53) n)) by nia.
  cbn [when mbind Result_bind].
  assert (Hmod : Z.rem totalSize chunkSize = totalSize `mod` chunkSize)
    by (apply Z.rem_mod_nonneg; lia).
  assert (Hdm : totalSize = chunkSize * n + totalSize `mod` chunkSize)
    by (apply Z.div_mod; lia).
  assert (Hm : 0 ≤ totalSize `mod` chunkSize < chunkSize)
    by (apply Z.mod_pos_bound; lia).
  destruct (assign_loop partCount chunkSize n Hpc Hn ltac:(lia) ltac:(lia))
    as (sizes & -> & Hlen & Hcnt & Hsum).
  cbn [mbind Result_bind]. rewrite Hmod.
  assert (∃ sizes',
    (if 0 <? totalSize `mod` chunkSize
     then addAt sizes (Z.min n (partCount - 1)) (totalSize `mod` chunkSize)
     else Ok sizes) = Ok sizes'
    ∧ length sizes' = Z.to_nat partCount
    ∧ (∀ k : nat, (k < Z.to_nat partCount)%nat →
         sizes' !! k = Some (bucketSize totalSize partCount chunkSize (Z.of_nat k)))
    ∧ sumZ sizes' = totalSize) as (sizes' & -> & Hlen' & Hcnt' & Hsum').
  { unfold bucketSize, leftoverIndex. fold n.
    destruct (0 <? totalSize `mod` chunkSize) eqn:Hlo.
    - apply Z.ltb_lt in Hlo.
      set (li := Z.min n (partCount - 1)).
      assert (Hli : 0 ≤ li < partCount) by (unfold li; lia).
      assert (Hlk : (Z.to_nat li < Z.to_nat partCount)%nat) by lia.
      pose proof (Hcnt _ Hlk) as Hv.
      unfold addAt.
      assert (readAt NotANumber sizes li =
              Ok (chunkSize * roundRobinCount partCount li (Z.to_nat n))) as ->.
      { apply readAt_Ok; [lia|]. rewrite Hv. by rewrite Z2Nat.id by lia. }
      cbn [mbind Result_bind].
      rewrite addNumbers_exact.
      2:{ pose proof (roundRobinCount_bounds partCount li (Z.to_nat n)). nia. }
      cbn [mbind Result_bind]. eexists. split; [done|].
      split; [by rewrite length_insert|]. split.
      + intros k Hk. destruct (decide (k = Z.to_nat li)) as [->|Hne].
        * rewrite list_lookup_insert_eq by lia. rewrite Z2Nat.id by lia.
          by rewrite bool_decide_eq_true_2.
        * rewrite list_lookup_insert_ne by done. rewrite (Hcnt _ Hk).
          rewrite bool_decide_eq_false_2 by lia. f_equal. lia.
      + rewrite (sumZ_insert _ _ _ _ Hv), Hsum. rewrite Z2Nat.id by lia. lia.
    - apply Z.ltb_ge in Hlo. assert (H0 : totalSize `mod` chunkSize = 0) by lia.
      exists sizes. split; [done|]. split; [done|]. split.
      + intros k Hk. rewrite (Hcnt _ Hk). f_equal. rewrite H0.
        destruct (bool_decide _); lia.
      + lia. }
  cbn [mbind Result_bind].
  destruct (push_loop sizes') as (lb & Hpush).
  { intros x Hx. apply list_elem_of_lookup in Hx as [k Hk].
    rewrite Hcnt' in Hk by (apply lookup_lt_Some in Hk; lia).
    injection Hk as <-. by apply bucketSize_nonneg. }
  { lia. }
  rewrite Hlen', Z2Nat.id in Hpush by lia. rewrite Hpush.
  exists sizes'. done.
Qed.

Lemma roundRobinCount_unvisited partCount k n :
  Z.of_nat n ≤ k → k < partCount → roundRobinCount partCount k n = 0.
Proof.
  intros Hk Hpc. induction n as [|n IH]; [done|].
  cbn [roundRobinCount]. rewrite IH by lia.
  rewrite bool_decide_eq_false_2; [done|].
  rewrite Z.rem_small by lia. lia.
Qed.

(** The round robin is balanced: every bucket gets [n / partCount] chunks,
    and the first [n mod partCount] buckets one more. *)
Lemma roundRobinCount_closed partCount k n :
  1 ≤ partCount → 0 ≤ k < partCount →
  roundRobinCount partCount k n
  = Z.of_nat n / partCount
    + (if bool_decide (k < Z.of_nat n `mod` partCount) then 1 else 0).
Proof.
  intros Hpc Hk. induction n as [|n IH].
  - cbn [roundRobinCount]. change (Z.of_nat 0) with 0.
    rewrite Z.div_0_l, Z.mod_0_l by lia. rewrite bool_decide_eq_false_2 by lia. lia.
  - cbn [roundRobinCount]. rewrite IH. clear IH.
    rewrite Z.rem_mod_nonneg by lia.
    replace (Z.of_nat (S n)) with (Z.of_nat n + 1) by lia.
    set (m := Z.of_nat n).
    pose proof (Z.div_mod m partCount ltac:(lia)) as Hdm.
    pose proof (Z.mod_pos_bound m partCount ltac:(lia)) as Hm.
    set (q := m / partCount) in *. set (r := m `mod` partCount) in *.
    destruct (decide (r + 1 = partCount)) as [Hwrap|Hnowrap].
    + assert ((m + 1) / partCount = q + 1) as ->
        by (symmetry; apply (Z.div_unique _ _ _ 0); lia).
      assert ((m + 1) `mod` partCount = 0) as ->
        by (symmetry; apply (Z.mod_unique _ _ (q + 1)); lia).
      repeat case_bool_decide; lia.
    + assert ((m + 1) / partCount = q) as ->
        by (symmetry; apply (Z.div_unique _ _ _ (r + 1)); lia).
      assert ((m + 1) `mod` partCount = r + 1) as ->
        by (symmetry; apply (Z.mod_unique _ _ q); lia).
      repeat case_bool_decide; lia.
Qed.

Lemma split_valid_sizes totalSize partCount chunkSize :
  1 ≤ partCount < 2 ^ 32 → 1 ≤ chunkSize → chunkSize < totalSize < 2 ^ 53 →
  ∃ parts,
    splitSizeIntoChunkAlignedParts totalSize partCount chunkSize = Ok parts
    ∧ length parts = Z.to_nat partCount
    ∧ (∀ i p, parts !! i = Some p →
         (i < Z.to_nat partCount)%nat
         ∧ start p = sumZ (take i (partSize <$> parts))
         ∧ end_ p = sumZ (take (S i) (partSize <$> parts))
         ∧ partSize p = bucketSize totalSize partCount chunkSize (Z.of_nat i))
    ∧ sumZ (partSize <$> parts) = totalSize.
Proof.
  intros Hpc Hc Ht.
  destruct (split_valid totalSize partCount chunkSize Hpc Hc Ht)
    as (sizes & Hrun & Hlen & Hcnt & Hsum).
  exists (rangesOf sizes). rewrite rangesOf_sizes.
  split; [done|]. split; [by rewrite length_rangesOf|]. split; [|done].
  intros i p Hp. pose proof Hp as Hp'.
  apply rangesOf_lookup in Hp as [Hi ->]. cbn [start end_].
  split; [lia|]. split; [done|]. split; [done|].
  assert (Hs : (partSize <$> rangesOf sizes) !! i = sizes !! i)
    by (by rewrite rangesOf_sizes).
  rewrite list_lookup_fmap, Hp', Hcnt in Hs by lia. by injection Hs.
Qed.

(** C1, as the claim has it, fails.  The sizes are numbers, and from 2^53 on
    a sum of numbers is rounded: for a total of 31525197391593476 bytes in
    seven parts with chunks of 2^52 + 1 bytes (both sizes are numbers) the
    boundaries drift, and the last part ends four bytes short of the total.
    And a part count from 2^32 on is no array length: [new Array] throws a
    [RangeError] and no list is returned. *)
Lemma split_parts_tile_rounded :
  roundDouble 31525197391593476 = 31525197391593476
  ∧ roundDouble 4503599627370497 = 4503599627370497
  ∧ splitSizeIntoChunkAlignedParts 31525197391593476 7 4503599627370497
    = Ok [mkPart 0 4503599627370497;
          mkPart 4503599627370497 9007199254740994;
          mkPart 9007199254740994 13510798882111492;
          mkPart 13510798882111492 18014398509481988;
          mkPart 18014398509481988 22517998136852484;
          mkPart 22517998136852484 27021597764222980;
          mkPart 27021597764222980 31525197391593472]
  ∧ (¬ ∃ parts,
        splitSizeIntoChunkAlignedParts 31525197391593476 7 4503599627370497
        = Ok parts
        ∧ sumZ (partSize <$> parts) = 31525197391593476
        ∧ ∃ p, last parts = Some p ∧ end_ p = 31525197391593476)
  ∧ splitSizeIntoChunkAlignedParts 8589934592 4294967296 1
    = Throw RangeError.
Proof.
  assert (H : splitSizeIntoChunkAlignedParts 31525197391593476 7 4503599627370497
    = Ok [mkPart 0 4503599627370497;
          mkPart 4503599627370497 9007199254740994;
          mkPart 9007199254740994 13510798882111492;
          mkPart 13510798882111492 18014398509481988;
          mkPart 18014398509481988 22517998136852484;
          mkPart 22517998136852484 27021597764222980;
          mkPart 27021597764222980 31525197391593472])
    by (vm_compute; reflexivity).
  split; [by vm_compute|]. split; [by vm_compute|]. split; [exact H|].
  split; [|by vm_compute].
  intros (parts & Hparts & Hsum & _). rewrite H in Hparts.
  injection Hparts as <-. vm_compute in Hsum. discriminate Hsum.
Qed.

(** C1, as the code has it.  For integers with [1 ≤ partCount < 2^32],
    [chunkSize ≥ 1] and [chunkSize < totalSize < 2^53]
    [splitSizeIntoChunkAlignedParts] returns half-open ranges that are
    ordered and contiguous and that tile [0, totalSize): the first part
    starts at 0, every part ends where the next one starts, no part ends
    before it starts, a part ends no later than any later part starts, the
    sizes add up to [totalSize], and the last part ends at [totalSize]. *)
Theorem split_parts_tile totalSize partCount chunkSize :
  1 ≤ partCount < 2 ^ 32 → 1 ≤ chunkSize → chunkSize < totalSize < 2 ^ 53 →
  ∃ parts,
    splitSizeIntoChunkAlignedParts totalSize partCount chunkSize = Ok parts
    ∧ (∃ p, head parts = Some p ∧ start p = 0)
    ∧ (∀ i p q, parts !! i = Some p → parts !! S i = Some q → end_ p = start q)
    ∧ (∀ p, p ∈ parts → start p ≤ end_ p)
    ∧ (∀ i j p q, (i < j)%nat → parts !! i = Some p → parts !! j = Some q →
         end_ p ≤ start q)
    ∧ sumZ (partSize <$> parts) = totalSize
    ∧ (∃ p, last parts = Some p ∧ end_ p = totalSize).
Proof.
  intros Hpc Hc Ht.
  destruct (split_valid_sizes totalSize partCount chunkSize Hpc Hc Ht)
    as (parts & Hrun & Hlen & Hparts & Hsum).
  assert (Hnonneg : ∀ x, x ∈ partSize <$> parts → 0 ≤ x).
  { intros x Hx. apply list_elem_of_fmap in Hx as (p & -> & Hp).
    apply list_elem_of_lookup in Hp as [i Hi].
    destruct (Hparts _ _ Hi) as (_ & _ & _ & ->). by apply bucketSize_nonneg. }
  exists parts. split; [done|]. repeat split.
  - destruct (lookup_lt_is_Some_2 parts 0%nat) as [p Hp]; [lia|].
    exists p. rewrite head_lookup. split; [done|].
    by destruct (Hparts _ _ Hp) as (_ & -> & _).
  - intros i p q Hp Hq.
    destruct (Hparts _ _ Hp) as (_ & _ & -> & _).
    by destruct (Hparts _ _ Hq) as (_ & -> & _).
  - intros p Hp. apply list_elem_of_lookup in Hp as [i Hi].
    destruct (Hparts _ _ Hi) as (_ & -> & -> & _).
    by apply sumZ_take_step.
  - intros i j p q Hij Hp Hq.
    destruct (Hparts _ _ Hp) as (_ & _ & -> & _).
    destruct (Hparts _ _ Hq) as (_ & -> & _).
    apply sumZ_take_mono; [done|lia].
  - done.
  - destruct (lookup_lt_is_Some_2 parts (pred (length parts))) as [p Hp]; [lia|].
    exists p. rewrite last_lookup. split; [done|].
    destruct (Hparts _ _ Hp) as (_ & _ & -> & _).
    rewrite take_ge; [done|]. rewrite length_fmap. lia.
Qed.

Lemma split_parts_tile_witness :
  ∃ parts,
    splitSizeIntoChunkAlignedParts 25 2 10 = Ok parts
    ∧ (∃ p, head parts = Some p ∧ start p = 0)
    ∧ (∀ i p q, parts !! i = Some p → parts !! S i = Some q → end_ p = start q)
    ∧ (∀ p, p ∈ parts → start p ≤ end_ p)
    ∧ (∀ i j p q, (i < j)%nat → parts !! i = Some p → parts !! j = Some q →
         end_ p ≤ start q)
    ∧ sumZ (partSize <$> parts) = 25
    ∧ (∃ p, last parts = Some p ∧ end_ p = 25).
Proof. apply (split_parts_tile 25 2 10); lia. Defined.

(** C2, as the claim has it, fails.  From 2^53 on the boundaries are
    rounded: a total of 18014398509481988 bytes is four chunks of 2^52 + 1
    bytes, with nothing left over, and yet the third part has one byte more
    than a chunk and the fourth one byte less, two parts off the chunk size.
    And with a part count from 2^32 on the function throws a [RangeError]. *)
Lemma split_one_unaligned_rounded :
  roundDouble 18014398509481988 = 18014398509481988
  ∧ roundDouble 4503599627370497 = 4503599627370497
  ∧ splitSizeIntoChunkAlignedParts 18014398509481988 4 4503599627370497
    = Ok [mkPart 0 4503599627370497;
          mkPart 4503599627370497 9007199254740994;
          mkPart 9007199254740994 13510798882111492;
          mkPart 13510798882111492 18014398509481988]
  ∧ (¬ ∃ parts,
        splitSizeIntoChunkAlignedParts 18014398509481988 4 4503599627370497
        = Ok parts
        ∧ ∀ i j p q, parts !! i = Some p → parts !! j = Some q →
            ¬ (4503599627370497 | partSize p) →
            ¬ (4503599627370497 | partSize q) → i = j)
  ∧ splitSizeIntoChunkAlignedParts 17179869184 8589934592 1
    = Throw RangeError.
Proof.
  assert (H : splitSizeIntoChunkAlignedParts 18014398509481988 4 4503599627370497
    = Ok [mkPart 0 4503599627370497;
          mkPart 4503599627370497 9007199254740994;
          mkPart 9007199254740994 13510798882111492;
          mkPart 13510798882111492 18014398509481988])
    by (vm_compute; reflexivity).
  split; [by vm_compute|]. split; [by vm_compute|]. split; [exact H|].
  split; [|by vm_compute].
  intros (parts & Hparts & Hone). rewrite H in Hparts. injection Hparts as <-.
  assert (Hoff : ∀ x, 0 < x < 4503599627370497 ∨
                      4503599627370497 < x < 2 * 4503599627370497 →
                      ¬ (4503599627370497 | x)).
  { intros x Hx [k Hk]. nia. }
  specialize (Hone 2%nat 3%nat _ _ eq_refl eq_refl).
  unfold partSize in Hone. cbn [start end_] in Hone.
  discriminate Hone; apply Hoff; lia.
Qed.

(** C2, as the code has it.  For integers with [1 ≤ partCount < 2^32],
    [chunkSize ≥ 1] and [chunkSize < totalSize < 2^53] at most one part has
    a size that is not a multiple of [chunkSize]; every part's size is its
    round-robin share of whole chunks, and the leftover
    [totalSize mod chunkSize] goes, whole, to the part at index
    [min (totalSize / chunkSize) (partCount - 1)] and to no other;
    [splitSizeIntoChunkAlignedParts 25 2 10] is [{0, 10}; {10, 25}]. *)
Theorem split_one_unaligned totalSize partCount chunkSize :
  1 ≤ partCount < 2 ^ 32 → 1 ≤ chunkSize → chunkSize < totalSize < 2 ^ 53 →
  ∃ parts,
    splitSizeIntoChunkAlignedParts totalSize partCount chunkSize = Ok parts
    ∧ (∀ i j p q, parts !! i = Some p → parts !! j = Some q →
         ¬ (chunkSize | partSize p) → ¬ (chunkSize | partSize q) → i = j)
    ∧ (∀ i p, parts !! i = Some p →
         partSize p =
         chunkSize
         * roundRobinCount partCount (Z.of_nat i) (Z.to_nat (totalSize / chunkSize))
         + (if bool_decide
                 (Z.of_nat i = Z.min (totalSize / chunkSize) (partCount - 1))
            then totalSize `mod` chunkSize else 0))
    ∧ splitSizeIntoChunkAlignedParts 25 2 10 = Ok [mkPart 0 10; mkPart 10 25].
Proof.
  intros Hpc Hc Ht.
  destruct (split_valid_sizes totalSize partCount chunkSize Hpc Hc Ht)
    as (parts & Hrun & Hlen & Hparts & Hsum).
  assert (Haligned : ∀ i p, parts !! i = Some p →
            ¬ (chunkSize | partSize p) →
            Z.of_nat i = leftoverIndex totalSize partCount chunkSize).
  { intros i p Hp Hnd. destruct (Hparts _ _ Hp) as (_ & _ & _ & Hsz).
    unfold bucketSize in Hsz. case_bool_decide as Hi; [done|].
    exfalso. apply Hnd. rewrite Hsz, Z.add_0_r. apply Z.divide_factor_l. }
  exists parts. split; [done|]. split; [|split; [|done]].
  - intros i j p q Hp Hq Hnp Hnq.
    pose proof (Haligned _ _ Hp Hnp). pose proof (Haligned _ _ Hq Hnq). lia.
  - intros i p Hp. by destruct (Hparts _ _ Hp) as (_ & _ & _ & ->).
Qed.

Lemma split_one_unaligned_witness :
  ∃ parts,
    splitSizeIntoChunkAlignedParts 25 2 10 = Ok parts
    ∧ (∀ i j p q, parts !! i = Some p → parts !! j = Some q →
         ¬ (10 | partSize p) → ¬ (10 | partSize q) → i = j)
    ∧ (∀ i p, parts !! i = Some p →
         partSize p =
         10 * roundRobinCount 2 (Z.of_nat i) (Z.to_nat (25 / 10))
         + (if bool_decide (Z.of_nat i = Z.min (25 / 10) (2 - 1))
            then 25 `mod` 10 else 0))
    ∧ splitSizeIntoChunkAlignedParts 25 2 10 = Ok [mkPart 0 10; mkPart 10 25].
Proof. apply (split_one_unaligned 25 2 10); lia. Defined.

(** *** What the function throws *)

Lemma forLoop_throws {S} (Q : Exn → Prop) (body : Z → S → Result S) n i s e :
  (∀ j t e', body j t = Throw e' → Q e') →
  forLoop n i body s = Throw e → Q e.
Proof.
  intros Hbody. revert i s. induction n as [|n IH]; intros i s H; [done|].
  cbn [forLoop] in H. destruct (body i s) as [t|e'] eqn:Hb; cbn in H.
  - by eapply IH.
  - injection H as <-. by eapply Hbody.
Qed.

Lemma addAt_throws arr k x e :
  addAt arr k x = Throw e → otherThanValidation e.
Proof.
  unfold addAt, readAt, addNumbers. intros H.
  repeat (case_bool_decide || case_match || simplify_eq/= ); done.
Qed.

Lemma pushPart_throws sizes i st e :
  pushPart sizes i st = Throw e → otherThanValidation e.
Proof.
  destruct st as [parts lb]. unfold pushPart, readAt, addNumbers. intros H.
  repeat (case_bool_decide || case_match || simplify_eq/= ); done.
Qed.

(** Once the three checks have passed no validation error is thrown. *)
Lemma split_valid_throws totalSize partCount chunkSize e :
  1 ≤ partCount → 1 ≤ chunkSize → chunkSize < totalSize →
  splitSizeIntoChunkAlignedParts totalSize partCount chunkSize = Throw e →
  otherThanValidation e.
Proof.
  intros Hpc Hc Ht. unfold splitSizeIntoChunkAlignedParts.
  rewrite (proj2 (Z.ltb_ge partCount 1)) by lia.
  rewrite (proj2 (Z.ltb_ge chunkSize 1)) by lia.
  rewrite (proj2 (Z.leb_gt totalSize chunkSize)) by lia.
  cbn [when mbind Result_bind]. unfold newArrayFilled.
  case_bool_decide; cbn [mbind Result_bind]; [|by intros [= <-]].
  destruct (2 ^ 53 <? _); cbn [when mbind Result_bind]; [by intros [= <-]|].
  destruct (forRange 0 _ (assignChunk partCount chunkSize) _) as [sizes|e1] eqn:H1;
    cbn [mbind Result_bind].
  2:{ intros [= <-]. eapply (forLoop_throws otherThanValidation); [|exact H1].
      intros j t e'. apply addAt_throws. }
  match goal with |- context [if ?c then addAt ?a ?k ?x else _] =>
    destruct c; [destruct (addAt a k x) as [sizes'|e2] eqn:H2|] end;
    cbn [mbind Result_bind].
  2:{ intros [= <-]. by eapply addAt_throws. }
  all: match goal with |- context [forRange 0 ?n (pushPart ?a) ?s0] =>
         destruct (forRange 0 n (pushPart a) s0) as [st|e3] eqn:H3 end;
       cbn [mbind Result_bind]; [done|];
       intros [= <-]; eapply (forLoop_throws otherThanValidation); [|exact H3];
       intros j t e'; apply pushPart_throws.
Qed.

(** C6, as the claim has it, fails: with the three preconditions met the
    function still throws when the part count is no array length.  For 100
    bytes in 2^32 parts with chunks of 10 bytes [new Array] throws a
    [RangeError]. *)
Lemma split_valid_input_throws :
  1 ≤ 4294967296 ∧ 1 ≤ 10 ∧ 10 < 100
  ∧ splitSizeIntoChunkAlignedParts 100 4294967296 10
    = Throw RangeError
  ∧ ¬ ∃ parts, splitSizeIntoChunkAlignedParts 100 4294967296 10 = Ok parts.
Proof.
  assert (H : splitSizeIntoChunkAlignedParts 100 4294967296 10
              = Throw RangeError) by (by vm_compute).
  split; [lia|]. split; [lia|]. split; [lia|]. split; [exact H|].
  intros [parts Hparts]. rewrite H in Hparts. discriminate Hparts.
Qed.

(** C6, as the code has it.  On integers [splitSizeIntoChunkAlignedParts]
    throws a validation error, and so returns no parts, exactly when
    [partCount < 1], [chunkSize < 1] or [totalSize <= chunkSize]; each of the
    three violations alone makes it throw.  With all three preconditions met
    it throws no validation error: it throws a [RangeError] when
    [partCount] is 2^32 or more, and it returns parts when [partCount] is
    below 2^32 and [totalSize] below 2^53.  It returns parts only on input
    that meets the preconditions with [partCount] below 2^32. *)
Theorem split_validation totalSize partCount chunkSize :
  ((partCount < 1 ∨ chunkSize < 1 ∨ totalSize ≤ chunkSize) ↔
   ∃ name kind expected,
     splitSizeIntoChunkAlignedParts totalSize partCount chunkSize
     = Throw (ValidationError name kind expected))
  ∧ (partCount < 1 →
     isValidationError
       (splitSizeIntoChunkAlignedParts totalSize partCount chunkSize) = true)
  ∧ (chunkSize < 1 →
     isValidationError
       (splitSizeIntoChunkAlignedParts totalSize partCount chunkSize) = true)
  ∧ (totalSize ≤ chunkSize →
     isValidationError
       (splitSizeIntoChunkAlignedParts totalSize partCount chunkSize) = true)
  ∧ (1 ≤ partCount ∧ 1 ≤ chunkSize ∧ chunkSize < totalSize →
     isValidationError
       (splitSizeIntoChunkAlignedParts totalSize partCount chunkSize) = false
     ∧ (2 ^ 32 ≤ partCount →
        splitSizeIntoChunkAlignedParts totalSize partCount chunkSize
        = Throw RangeError)
     ∧ (partCount < 2 ^ 32 → totalSize < 2 ^ 53 →
        ∃ parts,
          splitSizeIntoChunkAlignedParts totalSize partCount chunkSize = Ok parts))
  ∧ (∀ parts,
       splitSizeIntoChunkAlignedParts totalSize partCount chunkSize = Ok parts →
       1 ≤ partCount < 2 ^ 32 ∧ 1 ≤ chunkSize ∧ chunkSize < totalSize).
Proof.
  assert (Hthrow : partCount < 1 ∨ chunkSize < 1 ∨ totalSize ≤ chunkSize →
    ∃ name kind expected,
      splitSizeIntoChunkAlignedParts totalSize partCount chunkSize
      = Throw (ValidationError name kind expected)).
  { intros Hbad. unfold splitSizeIntoChunkAlignedParts.
    destruct (partCount <? 1) eqn:H1; [by eexists _, _, _|].
    destruct (chunkSize <? 1) eqn:H2; [by eexists _, _, _|].
    destruct (totalSize <=? chunkSize) eqn:H3; [by eexists _, _, _|].
    apply Z.ltb_ge in H1, H2. apply Z.leb_gt in H3. lia. }
  assert (Hrange : 1 ≤ partCount ∧ 1 ≤ chunkSize ∧ chunkSize < totalSize →
    2 ^ 32 ≤ partCount →
    splitSizeIntoChunkAlignedParts totalSize partCount chunkSize
    = Throw RangeError).
  { intros (Hpc & Hc & Ht) Hbig. unfold splitSizeIntoChunkAlignedParts.
    rewrite (proj2 (Z.ltb_ge partCount 1)) by lia.
    rewrite (proj2 (Z.ltb_ge chunkSize 1)) by lia.
    rewrite (proj2 (Z.leb_gt totalSize chunkSize)) by lia.
    cbn [when mbind Result_bind]. unfold newArrayFilled.
    by rewrite bool_decide_eq_false_2 by lia. }
  assert (Hnone : 1 ≤ partCount ∧ 1 ≤ chunkSize ∧ chunkSize < totalSize →
    isValidationError
      (splitSizeIntoChunkAlignedParts totalSize partCount chunkSize) = false).
  { intros (Hpc & Hc & Ht).
    destruct (splitSizeIntoChunkAlignedParts totalSize partCount chunkSize)
      as [parts|e] eqn:Hrun; [done|].
    apply split_valid_throws in Hrun; [|done..]. by destruct e. }
  assert (Hcases : (partCount < 1 ∨ chunkSize < 1 ∨ totalSize ≤ chunkSize)
                   ∨ (1 ≤ partCount ∧ 1 ≤ chunkSize ∧ chunkSize < totalSize)) by lia.
  assert (Hv : partCount < 1 ∨ chunkSize < 1 ∨ totalSize ≤ chunkSize →
    isValidationError
      (splitSizeIntoChunkAlignedParts totalSize partCount chunkSize) = true).
  { intros Hbad. destruct (Hthrow Hbad) as (? & ? & ? & ->). done. }
  split; [|split; [|split; [|split; [|split]]]].
  - split; [done|]. intros (name & kind & expected & Hrun).
    destruct Hcases as [|Hgood]; [done|].
    apply Hnone in Hgood. rewrite Hrun in Hgood. discriminate Hgood.
  - auto.
  - auto.
  - auto.
  - intros Hgood. split; [by apply Hnone|]. split; [by apply Hrange|].
    intros Hpc32 Ht53. destruct Hgood as (Hpc & Hc & Ht).
    destruct (split_valid totalSize partCount chunkSize) as (sizes & Hrun & _);
      [lia..|]. eauto.
  - intros parts Hparts.
    destruct Hcases as [Hbad|Hgood].
    + destruct (Hthrow Hbad) as (? & ? & ? & ?). congruence.
    + destruct (decide (partCount < 2 ^ 32)); [lia|].
      rewrite Hrange in Hparts by (done || lia). discriminate Hparts.
Qed.

(** C9, as the claim has it, fails.  A part count from 2^32 on is no array
    length: for 1000 bytes in 2^32 parts with chunks of 7 bytes the function
    throws a [RangeError] and returns no list.  And from 2^53 on the
    quotient [totalSize / chunkSize] is rounded before [Math.floor] sees it:
    13510798882111490 bytes hold two chunks of 2^52 + 1 bytes, the program
    counts three, and of five parts the one at index 3 is not empty. *)
Lemma split_part_count_fails :
  splitSizeIntoChunkAlignedParts 1000 4294967296 7
  = Throw RangeError
  ∧ (¬ ∃ parts,
        splitSizeIntoChunkAlignedParts 1000 4294967296 7 = Ok parts
        ∧ Z.of_nat (length parts) = 4294967296)
  ∧ roundDouble 13510798882111490 = 13510798882111490
  ∧ roundDouble 4503599627370497 = 4503599627370497
  ∧ 13510798882111490 / 4503599627370497 + 1 = 3
  ∧ splitSizeIntoChunkAlignedParts 13510798882111490 5 4503599627370497
    = Ok [mkPart 0 4503599627370497;
          mkPart 4503599627370497 9007199254740994;
          mkPart 9007199254740994 13510798882111492;
          mkPart 13510798882111492 18014398509481988;
          mkPart 18014398509481988 18014398509481988]
  ∧ ¬ ∃ parts,
        splitSizeIntoChunkAlignedParts 13510798882111490 5 4503599627370497
        = Ok parts
        ∧ ∀ i p, 13510798882111490 / 4503599627370497 + 1 ≤ Z.of_nat i →
            parts !! i = Some p → start p = end_ p.
Proof.
  assert (H1 : splitSizeIntoChunkAlignedParts 1000 4294967296 7
               = Throw RangeError) by (by vm_compute).
  assert (H2 : splitSizeIntoChunkAlignedParts 13510798882111490 5 4503599627370497
    = Ok [mkPart 0 4503599627370497;
          mkPart 4503599627370497 9007199254740994;
          mkPart 9007199254740994 13510798882111492;
          mkPart 13510798882111492 18014398509481988;
          mkPart 18014398509481988 18014398509481988])
    by (vm_compute; reflexivity).
  assert (H3 : 13510798882111490 / 4503599627370497 + 1 = 3) by (by vm_compute).
  split; [exact H1|]. split.
  { intros (parts & Hparts & _). rewrite H1 in Hparts. discriminate Hparts. }
  split; [by vm_compute|]. split; [by vm_compute|]. split; [exact H3|].
  split; [exact H2|].
  intros (parts & Hparts & Hempty). rewrite H2 in Hparts. injection Hparts as <-.
  specialize (Hempty 3%nat _ ltac:(rewrite H3; lia) eq_refl).
  discriminate Hempty.
Qed.

(** C9, as the code has it.  For integers with [1 ≤ partCount < 2^32],
    [chunkSize ≥ 1] and [chunkSize < totalSize < 2^53] the result has exactly
    [partCount] parts; every part from index [totalSize / chunkSize + 1] on
    is an empty range ([start = end]), so when
    [totalSize / chunkSize + 1 < partCount] the list ends in zero-length
    parts. *)
Theorem split_part_count totalSize partCount chunkSize :
  1 ≤ partCount < 2 ^ 32 → 1 ≤ chunkSize → chunkSize < totalSize < 2 ^ 53 →
  ∃ parts,
    splitSizeIntoChunkAlignedParts totalSize partCount chunkSize = Ok parts
    ∧ Z.of_nat (length parts) = partCount
    ∧ (∀ i p, totalSize / chunkSize + 1 ≤ Z.of_nat i → parts !! i = Some p →
         start p = end_ p)
    ∧ (totalSize / chunkSize + 1 < partCount →
       ∃ p, last parts = Some p ∧ start p = end_ p).
Proof.
  intros Hpc Hc Ht.
  destruct (split_valid_sizes totalSize partCount chunkSize Hpc Hc Ht)
    as (parts & Hrun & Hlen & Hparts & Hsum).
  assert (Hn : 0 ≤ totalSize / chunkSize) by (apply Z.div_pos; lia).
  assert (Hempty : ∀ i p, totalSize / chunkSize + 1 ≤ Z.of_nat i →
            parts !! i = Some p → start p = end_ p).
  { intros i p Hi Hp. destruct (Hparts _ _ Hp) as (Hlt & _ & _ & Hsz).
    unfold bucketSize, leftoverIndex in Hsz.
    rewrite roundRobinCount_unvisited in Hsz by lia.
    rewrite bool_decide_eq_false_2 in Hsz by lia.
    unfold partSize in Hsz. lia. }
  exists parts. split; [done|]. split; [lia|]. split; [done|].
  intros Hmany.
  destruct (lookup_lt_is_Some_2 parts (pred (length parts))) as [p Hp]; [lia|].
  exists p. rewrite last_lookup. split; [done|].
  apply (Hempty (pred (length parts)) p); [lia|done].
Qed.

Lemma split_part_count_witness :
  ∃ parts,
    splitSizeIntoChunkAlignedParts 15 5 10 = Ok parts
    ∧ Z.of_nat (length parts) = 5
    ∧ (∀ i p, 15 / 10 + 1 ≤ Z.of_nat i → parts !! i = Some p → start p = end_ p)
    ∧ (15 / 10 + 1 < 5 → ∃ p, last parts = Some p ∧ start p = end_ p).
Proof. apply (split_part_count 15 5 10); lia. Defined.

(** ** The choice between the two upload paths *)



(** With the default options the threshold is three chunks of 40 MiB. *)
Example uploadFile_default_threshold :
  let this := {| customOptions := noCustomOptions |} in
  let file size := {| fileName := "f"; fileSize := size; fileType := "" |} in
  uploadFile this (file (100 * 1024 * 1024)) None
  = UploadSmallFile (file (100 * 1024 * 1024)) DEFAULT_UPLOAD_OPTIONS
  ∧ uploadFile this (file (120 * 1024 * 1024)) None
    = UploadLargeFile (file (120 * 1024 * 1024)) DEFAULT_UPLOAD_OPTIONS.
Proof. split; reflexivity. Qed.

(** The two files of the specification's example, with the threshold set to
    one chunk by the options of the call. *)
Example uploadFile_40MiB_threshold :
  let this := {| customOptions := noCustomOptions |} in
  let file size := {| fileName := "f"; fileSize := size; fileType := "" |} in
  let custom := {|
    endpointUpload' := None; endpointDirectoryUpload' := None;
    endpointLargeUpload' := None; customFilename' := None;
    chunkSizeMultiplier' := Some 1; largeFileSize' := Some (40 * 1024 * 1024);
    numParallelUploads' := None; staggerPercent' := None;
    retryDelays' := None |} in
  let opts := spread DEFAULT_UPLOAD_OPTIONS custom in
  uploadFile this (file (100 * 1024 * 1024)) (Some custom)
  = UploadLargeFile (file (100 * 1024 * 1024)) opts
  ∧ uploadFile this (file (10 * 1024 * 1024)) (Some custom)
    = UploadSmallFile (file (10 * 1024 * 1024)) opts.
Proof. split; reflexivity. Qed.

(** ** The URL algebra *)

(** *** [ensureUrlPrefix] *)

Lemma canonicalize_pattern_char (p d : ascii) :
  includes "htps:/" (String p "") = true →
  bool_decide (canonicalize true p = canonicalize true d)
  = bool_decide (p = asciiLowerChar d).
Proof.
  intros Hp.
  destruct p as [[] [] [] [] [] [] [] []]; try discriminate Hp;
    destruct d as [[] [] [] [] [] [] [] []]; reflexivity.
Qed.

Lemma testAtStart_schemePattern s :
  testAtStart true schemePattern s = schemePrefixed s.
Proof.
  unfold testAtStart, schemePattern, schemePrefixed, startsWith.
  destruct s as [|c1 [|c2 [|c3 [|c4 [|c5 [|c6 [|c7 [|c8 s]]]]]]]];
    cbn [matchAt asciiLower mapString stripPrefix];
    rewrite ?canonicalize_pattern_char by reflexivity;
    repeat (case_bool_decide; cbn [andb orb]); try reflexivity;
    repeat match goal with
    | H : ¬ is_Some (Some _) |- _ => exfalso; apply H; eauto
    | H : is_Some None |- _ => by destruct H
    | H : ?a = asciiLowerChar ?c, H' : ?b = asciiLowerChar ?c |- _ =>
        rewrite <- H in H'; discriminate H'
    | H : ?a = asciiLowerChar ?c, H' : ?a ≠ asciiLowerChar ?c |- _ =>
        by destruct H'
    end.
Qed.

(** C5.  [ensureUrlPrefix] returns its argument unchanged when it starts with
    [http:] or [https:] in any mix of cases, which is what the pattern
    [/^https?:(\/\/)?/i] tests; it returns [http://localhost/] for
    [localhost]; and it prepends [https://] to any other string.  So
    [localhost] becomes [http://localhost/], [example.com] becomes
    [https://example.com] and [http://x] stays as it is. *)
Theorem ensureUrlPrefix_cases (s : string) :
  testAtStart true schemePattern s = schemePrefixed s
  ∧ (schemePrefixed s = true → ensureUrlPrefix s = s)
  ∧ (s = "localhost" → ensureUrlPrefix s = "http://localhost/")
  ∧ (schemePrefixed s = false → s ≠ "localhost" →
     ensureUrlPrefix s = "https://" +:+ s)
  ∧ ensureUrlPrefix "localhost" = "http://localhost/"
  ∧ ensureUrlPrefix "example.com" = "https://example.com"
  ∧ ensureUrlPrefix "http://x" = "http://x".
Proof.
  split; [apply testAtStart_schemePattern|].
  unfold ensureUrlPrefix. rewrite testAtStart_schemePattern.
  repeat split; try reflexivity.
  - intros Hs. case_bool_decide as Hl; [by subst s|]. by rewrite Hs.
  - intros ->. reflexivity.
  - intros Hs Hl. rewrite bool_decide_eq_false_2 by done. by rewrite Hs.
Qed.

(** *** [makeUrl] *)

(** C8.  [makeUrl] without arguments throws a validation error. *)
Theorem makeUrl_no_arguments (urljoin : string → string → string) :
  makeUrl urljoin [] = Throw (ValidationError "args" "parameter" "non-empty")
  ∧ isValidationError (makeUrl urljoin []) = true.
Proof. split; reflexivity. Qed.

Lemma ensureUrl_cases (url : string) :
  (startsWith url "http://" = true ∨ startsWith url "https://" = true →
   ensureUrl url = url)
  ∧ (startsWith url "http://" = false → startsWith url "https://" = false →
     ensureUrl url = "https://" +:+ url).
Proof.
  unfold ensureUrl, ensurePrefix.
  destruct (startsWith url "http://"), (startsWith url "https://");
    split; intros; intuition (try discriminate; done).
Qed.

(** C7, as the code has it.  For a non-empty list of parts [makeUrl] folds
    the parts from the left through [urljoin] and applies [ensureUrl] to the
    result: a result that starts with [http://] or [https://] is returned
    unchanged, and any other gets [https://] in front.  For the single part
    [localhost] the result is [https://localhost]. *)
Theorem makeUrl_ensureUrl (urljoin : string → string → string)
    (part : string) (parts : list string) :
  let url := foldl urljoin part parts in
  makeUrl urljoin (part :: parts) = Ok (ensureUrl url)
  ∧ (startsWith url "http://" = true ∨ startsWith url "https://" = true →
     makeUrl urljoin (part :: parts) = Ok url)
  ∧ (startsWith url "http://" = false → startsWith url "https://" = false →
     makeUrl urljoin (part :: parts) = Ok ("https://" +:+ url))
  ∧ makeUrl urljoin ["localhost"] = Ok "https://localhost".
Proof.
  intros url.
  assert (Hrun : makeUrl urljoin (part :: parts) = Ok (ensureUrl url)) by done.
  destruct (ensureUrl_cases url) as [Hsame Hadd].
  split; [done|]. split; [|split; [|reflexivity]].
  - intros H. by rewrite Hrun, Hsame.
  - intros H1 H2. by rewrite Hrun, Hadd.
Qed.

(** C7, as the claim has it, fails: for the single part [localhost] no
    [urljoin] makes [makeUrl] return [ensureUrlPrefix "localhost"], which is
    [http://localhost/]. *)
Lemma makeUrl_not_ensureUrlPrefix :
  ¬ ∃ urljoin : string → string → string,
      makeUrl urljoin ["localhost"] = Ok (ensureUrlPrefix "localhost").
Proof. intros [urljoin H]. discriminate H. Qed.

(** *** Strings *)

Lemma app_String c s t : String c s +:+ t = String c (s +:+ t).
Proof. reflexivity. Qed.

Lemma app_empty_l t : "" +:+ t = t.
Proof. reflexivity. Qed.

Lemma app_empty_r s : s +:+ "" = s.
Proof. induction s as [|c s IH]; [done|]. by rewrite app_String, IH. Qed.

Lemma app_assoc_string s t u : (s +:+ t) +:+ u = s +:+ (t +:+ u).
Proof. induction s as [|c s IH]; [done|]. by rewrite !app_String, IH. Qed.

Lemma length_app_string s t :
  String.length (s +:+ t) = (String.length s + String.length t)%nat.
Proof. induction s as [|c s IH]; [done|]. rewrite app_String. cbn. by rewrite IH. Qed.

Lemma app_eq_empty s t : s +:+ t = "" → s = "" ∧ t = "".
Proof. destruct s; [done|]. rewrite app_String. discriminate. Qed.

Lemma allChars_app f s t : allChars f (s +:+ t) = allChars f s && allChars f t.
Proof.
  induction s as [|c s IH]; [done|].
  rewrite app_String. cbn. by rewrite IH, andb_assoc.
Qed.

Lemma allChars_impl (f g : ascii → bool) s :
  (∀ c, f c = true → g c = true) → allChars f s = true → allChars g s = true.
Proof.
  intros Hfg. induction s as [|c s IH]; [done|]. cbn.
  intros [Hc Hs]%andb_prop. by rewrite (Hfg _ Hc), IH.
Qed.

Lemma mapString_fixed (f : ascii → ascii) (g : ascii → bool) s :
  (∀ c, g c = true → f c = c) → allChars g s = true → mapString f s = s.
Proof.
  intros Hf. induction s as [|c s IH]; [done|]. cbn.
  intros [Hc Hs]%andb_prop. by rewrite (Hf _ Hc), IH.
Qed.

Lemma spanChars_all f s : allChars f s = true → spanChars f s = (s, "").
Proof.
  induction s as [|c s IH]; [done|]. cbn.
  intros [Hc Hs]%andb_prop. by rewrite Hc, IH.
Qed.

Lemma spanChars_app f s c t :
  allChars f s = true → f c = false → spanChars f (s +:+ String c t) = (s, String c t).
Proof.
  intros Hs Hc. induction s as [|d s IH].
  - rewrite app_empty_l. cbn. by rewrite Hc.
  - cbn in Hs. apply andb_prop in Hs as [Hd Hs].
    rewrite app_String. cbn. by rewrite Hd, IH.
Qed.

Lemma dropWhileChars_none f s :
  allChars (λ c, negb (f c)) s = true → dropWhileChars f s = s.
Proof.
  destruct s as [|c s]; [done|]. cbn.
  intros [Hc _]%andb_prop. by apply negb_true_iff in Hc as ->.
Qed.

Lemma dropWhileChars_skip f c s :
  f c = true → dropWhileChars f (String c s) = dropWhileChars f s.
Proof. intros H. cbn. by rewrite H. Qed.

Lemma dropWhileChars_stop f c s :
  f c = false → dropWhileChars f (String c s) = String c s.
Proof. intros H. cbn. by rewrite H. Qed.

Lemma stripPrefix_app p s : stripPrefix p (p +:+ s) = Some s.
Proof.
  induction p as [|c p IH]; [by destruct s|].
  rewrite app_String. cbn. by rewrite bool_decide_eq_true_2.
Qed.

Lemma stripPrefix_Some p s r : stripPrefix p s = Some r → s = p +:+ r.
Proof.
  revert s. induction p as [|c p IH]; intros s H.
  - destruct s; by injection H as <-.
  - destruct s as [|d s]; [done|]. cbn in H. case_bool_decide; [|done].
    subst d. rewrite app_String. f_equal. by apply IH.
Qed.

Lemma startsWith_app p s : startsWith (p +:+ s) p = true.
Proof.
  unfold startsWith. rewrite stripPrefix_app. by apply bool_decide_eq_true_2.
Qed.

Lemma stripSuffix_unfold q s :
  stripSuffix q s =
  if bool_decide (s = q) then Some ""
  else match s with
       | "" => None
       | String c s' => String c <$> stripSuffix q s'
       end.
Proof. by destruct s. Qed.

Lemma stripSuffix_app q a : stripSuffix q (a +:+ q) = Some a.
Proof.
  induction a as [|c a IH].
  - rewrite app_empty_l, stripSuffix_unfold. by rewrite bool_decide_eq_true_2.
  - rewrite app_String, stripSuffix_unfold.
    rewrite bool_decide_eq_false_2.
    + by rewrite IH.
    + intros H. apply (f_equal String.length) in H.
      cbn in H. rewrite length_app_string in H. lia.
Qed.

Lemma stripSuffix_Some q s a : stripSuffix q s = Some a → s = a +:+ q.
Proof.
  revert a. induction s as [|c s IH]; intros a; rewrite stripSuffix_unfold;
    case_bool_decide as Hq.
  - intros [= <-]. by rewrite app_empty_l.
  - done.
  - intros [= <-]. by rewrite app_empty_l.
  - destruct (stripSuffix q s) as [a'|] eqn:Ha; [|done].
    intros [= <-]. rewrite app_String. f_equal. by apply IH.
Qed.

(** Whether a string ends with a given character depends on its end only. *)
Lemma stripSuffix_char_app c a b :
  b ≠ "" →
  stripSuffix (String c "") (a +:+ b) = (λ r, a +:+ r) <$> stripSuffix (String c "") b.
Proof.
  intros Hb. induction a as [|e a IH].
  - rewrite app_empty_l. by destruct (stripSuffix _ b).
  - rewrite app_String, stripSuffix_unfold.
    rewrite bool_decide_eq_false_2.
    + rewrite IH. by destruct (stripSuffix _ b).
    + intros [= _ H]. by apply app_eq_empty in H as [_ ?].
Qed.

Lemma stripSuffix_char_None c s :
  allChars (λ d, negb (isChar c d)) s = true → stripSuffix (String c "") s = None.
Proof.
  induction s as [|e s IH]; [done|]. cbn [allChars].
  intros [He Hs]%andb_prop. rewrite stripSuffix_unfold.
  rewrite bool_decide_eq_false_2.
  - by rewrite IH.
  - intros [= -> _]. unfold isChar in He. by rewrite bool_decide_eq_true_2 in He.
Qed.

Lemma trimSuffix_None str suffix limit :
  stripSuffix suffix str = None → trimSuffix str suffix limit = str.
Proof. intros H. unfold trimSuffix. cbn. by rewrite H. Qed.

Lemma trimSuffix_once str suffix rest :
  stripSuffix suffix str = Some rest → stripSuffix suffix rest = None →
  trimSuffix str suffix None = rest.
Proof.
  intros H1 H2. unfold trimSuffix. cbn. rewrite H1.
  destruct (String.length str); cbn; [done|]. by rewrite H2.
Qed.

Lemma trimSuffix_limit_1 str suffix rest :
  stripSuffix suffix str = Some rest → trimSuffix str suffix (Some 1%nat) = rest.
Proof.
  intros H1. unfold trimSuffix. cbn. rewrite H1.
  destruct (String.length str); cbn; [done|].
  by destruct (stripSuffix suffix rest).
Qed.

Lemma trimForwardSlash_noop s :
  allChars (λ c, negb (isChar "/" c)) s = true → trimForwardSlash s = s.
Proof.
  intros Hs. unfold trimForwardSlash.
  rewrite trimSuffix_None by (by apply stripSuffix_char_None).
  by apply dropWhileChars_none.
Qed.

Lemma splitSlashRest_no_slash s :
  allChars (λ c, negb (isChar "/" c)) s = true → splitSlashRest s = (s, None).
Proof.
  induction s as [|c s IH]; [done|]. cbn [allChars].
  intros [Hc Hs]%andb_prop. cbn [splitSlashRest].
  apply negb_true_iff in Hc. rewrite Hc. cbn [andb]. by rewrite IH.
Qed.

Lemma includes_app a sub b : includes (a +:+ sub +:+ b) sub = true.
Proof.
  induction a as [|c a IH].
  - rewrite app_empty_l. destruct (sub +:+ b) eqn:E; cbn [includes];
      rewrite <-E, startsWith_app; done.
  - rewrite app_String. cbn [includes]. rewrite IH. by rewrite orb_true_r.
Qed.

(** *** Character classes *)

Lemma hostChar_facts c :
  isHostChar c = true →
  isPrintable c = true ∧ isSlash c = false ∧ isChar "/" c = false
  ∧ isChar ":" c = false.
Proof. destruct c as [[] [] [] [] [] [] [] []]; intros H; try discriminate H; done. Qed.

Lemma digit_facts c :
  isDigit c = true →
  isPrintable c = true ∧ isHostChar c = true ∧ isChar "/" c = false.
Proof. destruct c as [[] [] [] [] [] [] [] []]; intros H; try discriminate H; done. Qed.

Lemma asciiLower_fixed s :
  allChars (λ c, negb (isAsciiUpper c)) s = true → asciiLower s = s.
Proof.
  apply mapString_fixed. intros c Hc. unfold asciiLowerChar.
  by apply negb_true_iff in Hc as ->.
Qed.

(** *** Parsing an origin *)

Lemma plainHost_facts h :
  plainHost h = true →
  h ≠ "" ∧ allChars isHostChar h = true ∧ hostInFragment h = true
  ∧ asciiLower h = h
  ∧ includes ("." +:+ h +:+ ".") ".." = false.
Proof.
  unfold plainHost. intros [Hlow Hfrag]%andb_prop.
  pose proof Hfrag as Hfrag'. unfold hostInFragment in Hfrag.
  repeat (apply andb_prop in Hfrag as [Hfrag ?]).
  split; [|split; [done|split; [done|split]]].
  - intros ->. done.
  - by apply asciiLower_fixed.
  - by apply negb_true_iff.
Qed.

Lemma portInFragment_digits scheme pt :
  portInFragment scheme pt = true → allChars isDigit pt = true ∧ pt ≠ "".
Proof.
  unfold portInFragment. intros H.
  repeat (apply andb_prop in H as [H ?]).
  split; [done|]. intros ->. done.
Qed.

Lemma afterHost_cases pt tail scheme :
  pt = "" ∨ portInFragment scheme pt = true →
  tail = "" ∨ tail = "/" →
  allChars isPrintable (portPart pt +:+ tail) = true
  ∧ (portPart pt +:+ tail = ""
     ∨ ∃ c rest, portPart pt +:+ tail = String c rest ∧ isHostChar c = false)
  ∧ parsePort scheme (portPart pt +:+ tail) = Ok (pt, tail).
Proof.
  intros Hpt Htail. unfold portPart. case_bool_decide as Hempty.
  - subst pt. rewrite app_empty_l.
    destruct Htail as [-> | ->]; (split; [done|]); (split; [|done]).
    + by left.
    + right. by eexists _, _.
  - destruct Hpt as [?|Hpt]; [done|].
    destruct (portInFragment_digits _ _ Hpt) as [Hdigits _].
    assert (Hprint : allChars isPrintable pt = true).
    { eapply allChars_impl; [|exact Hdigits]. intros c Hc. by apply digit_facts. }
    rewrite !app_String, app_empty_l. split; [|split].
    + cbn [allChars]. rewrite allChars_app, Hprint.
      by destruct Htail as [-> | ->].
    + right. by eexists _, _.
    + cbn [parsePort].
      assert (spanChars isDigit (pt +:+ tail) = (pt, tail)) as ->.
      { destruct Htail as [-> | ->].
        - rewrite app_empty_r. by apply spanChars_all.
        - by apply spanChars_app. }
      by rewrite Hpt.
Qed.

Lemma URL_new_origin scheme h pt tail :
  scheme = "http" ∨ scheme = "https" →
  plainHost h = true →
  pt = "" ∨ portInFragment scheme pt = true →
  tail = "" ∨ tail = "/" →
  URL_new (scheme +:+ "://" +:+ h +:+ portPart pt +:+ tail)
  = Ok {| protocol := scheme +:+ ":"; hostname := h; port := pt; pathname := "/" |}.
Proof.
  intros Hscheme Hh Hpt Htail.
  destruct (plainHost_facts h Hh) as (Hne & Hchars & Hfrag & Hlow & _).
  destruct (afterHost_cases pt tail scheme Hpt Htail) as (Hprint & Hafter & Hport).
  set (after := portPart pt +:+ tail) in *.
  assert (Hhprint : allChars isPrintable h = true).
  { eapply allChars_impl; [|exact Hchars]. intros c Hc. by apply hostChar_facts. }
  assert (Hspan : spanChars isHostChar (h +:+ after) = (h, after)).
  { destruct Hafter as [-> | (c & rest & -> & Hc)].
    - rewrite app_empty_r. by apply spanChars_all.
    - by apply spanChars_app. }
  assert (Hdrop : dropWhileChars isSlash ("//" +:+ h +:+ after) = h +:+ after).
  { destruct h as [|c h']; [done|].
    cbn [allChars] in Hchars. apply andb_prop in Hchars as [Hc _].
    apply hostChar_facts in Hc as (_ & Hc & _).
    rewrite !app_String, app_empty_l.
    rewrite !dropWhileChars_skip by reflexivity.
    by apply dropWhileChars_stop. }
  assert (Hscan : scanScheme (scheme +:+ "://" +:+ h +:+ after)
                  = Some (scheme, "//" +:+ h +:+ after))
    by (by destruct Hscheme as [-> | ->]).
  assert (Hall : allChars isPrintable (scheme +:+ "://" +:+ h +:+ after) = true).
  { rewrite !allChars_app, Hhprint, Hprint. by destruct Hscheme as [-> | ->]. }
  unfold URL_new. rewrite Hall. cbn [negb]. rewrite Hscan.
  rewrite bool_decide_eq_true_2 by done.
  rewrite Hdrop, Hspan, Hfrag, Hport. cbn [mbind Result_bind].
  rewrite Hlow.
  by destruct Htail as [-> | ->].
Qed.

Lemma URL_toString_origin scheme h pt path :
  URL_toString
    {| protocol := scheme +:+ ":"; hostname := h; port := pt; pathname := path |}
  = originString scheme h pt +:+ path.
Proof.
  unfold URL_toString, originString, portPart. cbn [protocol hostname port pathname].
  by rewrite !app_assoc_string.
Qed.

Lemma originString_no_trailing_slash scheme h pt :
  plainHost h = true → pt = "" ∨ portInFragment scheme pt = true →
  stripSuffix "/" (originString scheme h pt) = None.
Proof.
  intros Hh Hpt.
  destruct (plainHost_facts h Hh) as (Hne & Hchars & _).
  unfold originString. rewrite <-!app_assoc_string.
  rewrite (app_assoc_string _ h).
  rewrite stripSuffix_char_app.
  - rewrite stripSuffix_char_None; [done|].
    rewrite allChars_app. apply andb_true_intro. split.
    + eapply allChars_impl; [|exact Hchars]. intros c Hc.
      apply hostChar_facts in Hc as (_ & _ & -> & _). done.
    + unfold portPart. case_bool_decide; [done|].
      destruct Hpt as [?|Hpt]; [done|].
      apply portInFragment_digits in Hpt as [Hd _].
      rewrite app_String, app_empty_l. cbn [allChars]. apply andb_true_intro.
      split; [done|]. eapply allChars_impl; [|exact Hd]. intros c Hc.
      apply digit_facts in Hc as (_ & _ & ->). done.
  - intros [? _]%app_eq_empty. done.
Qed.

Lemma addUrlSubdomain_origin scheme h pt tail d :
  scheme = "http" ∨ scheme = "https" →
  plainHost h = true →
  pt = "" ∨ portInFragment scheme pt = true →
  tail = "" ∨ tail = "/" →
  plainHost (d +:+ "." +:+ h) = true →
  addUrlSubdomain (originString scheme h pt +:+ tail) d
  = Ok (originString scheme (d +:+ "." +:+ h) pt).
Proof.
  intros Hscheme Hh Hpt Htail Hdh.
  destruct (plainHost_facts _ Hdh) as (_ & _ & Hfrag & Hlow & _).
  unfold addUrlSubdomain.
  replace (originString scheme h pt +:+ tail)
    with (scheme +:+ "://" +:+ h +:+ portPart pt +:+ tail)
    by (unfold originString; by rewrite !app_assoc_string).
  rewrite (URL_new_origin scheme h pt tail) by done.
  cbn [mbind Result_bind hostname]. unfold URL_set_hostname.
  rewrite Hfrag, Hlow. cbn [mbind Result_bind protocol port pathname].
  rewrite URL_toString_origin. f_equal.
  apply trimSuffix_once; [apply stripSuffix_app|].
  by apply originString_no_trailing_slash.
Qed.

(** *** The two normalisations of a portal URL *)

Lemma hostChars_not_schemePrefixed h :
  allChars isHostChar h = true → schemePrefixed h = false.
Proof.
  intros Hh.
  assert (Hcolon : allChars (λ c, negb (isChar ":" c)) (asciiLower h) = true).
  { clear -Hh. induction h as [|c h IH]; [done|].
    cbn [allChars] in Hh. apply andb_prop in Hh as [Hc Hh].
    cbn [asciiLower mapString allChars]. fold (asciiLower h).
    rewrite (IH Hh), andb_true_r.
    clear -Hc. destruct c as [[] [] [] [] [] [] [] []]; try discriminate Hc; done. }
  unfold schemePrefixed, startsWith.
  apply orb_false_intro; apply bool_decide_eq_false_2; intros [r Hr];
    apply stripPrefix_Some in Hr; rewrite Hr, allChars_app in Hcolon;
    discriminate Hcolon.
Qed.

Lemma ensureUrlPrefix_https rest :
  ensureUrlPrefix ("https://" +:+ rest) = "https://" +:+ rest.
Proof.
  unfold ensureUrlPrefix.
  rewrite bool_decide_eq_false_2 by discriminate.
  by rewrite testAtStart_schemePattern.
Qed.

Lemma ensureUrlPrefix_http rest :
  ensureUrlPrefix ("http://" +:+ rest) = "http://" +:+ rest.
Proof.
  unfold ensureUrlPrefix.
  rewrite bool_decide_eq_false_2 by discriminate.
  by rewrite testAtStart_schemePattern.
Qed.

Lemma ensureUrlPrefix_other s :
  s ≠ "localhost" → schemePrefixed s = false →
  ensureUrlPrefix s = "https://" +:+ s.
Proof.
  intros Hl Hs. unfold ensureUrlPrefix.
  rewrite bool_decide_eq_false_2 by done.
  by rewrite testAtStart_schemePattern, Hs.
Qed.

Lemma originString_https h pt :
  originString "https" h pt = "https://" +:+ h +:+ portPart pt.
Proof. reflexivity. Qed.

Lemma parsePort_Ok scheme rest pt rest' :
  parsePort scheme rest = Ok (pt, rest') →
  pt = "" ∨ portInFragment scheme pt = true.
Proof.
  unfold parsePort. destruct rest as [|c rest]; [intros [= <- <-]; by left|].
  destruct c as [[] [] [] [] [] [] [] []];
    try (intros [= <- <-]; by left).
  destruct (spanChars isDigit rest) as [port rest''].
  destruct (portInFragment scheme port) eqn:Hport; [|done].
  intros [= <- <-]. by right.
Qed.

(** What [new URL] returns has the scheme [http] or [https] and a port of
    the fragment. *)
Lemma URL_new_Ok input u :
  URL_new input = Ok u →
  ∃ scheme,
    (scheme = "http" ∨ scheme = "https")
    ∧ protocol u = scheme +:+ ":"
    ∧ (port u = "" ∨ portInFragment scheme (port u) = true).
Proof.
  unfold URL_new. destruct (negb _); [done|].
  destruct (scanScheme input) as [[scheme rest]|]; [|done].
  case_bool_decide as Hscheme; [|done].
  destruct (spanChars isHostChar _) as [host rest'].
  destruct (hostInFragment host); [|done].
  destruct (parsePort scheme rest') as [[pt rest'']|e] eqn:Hport; [|done].
  cbn [mbind Result_bind].
  destruct (parsePath rest'') as [path|e]; [|done].
  cbn [mbind Result_bind]. intros [= <-]. cbn [protocol port].
  exists scheme. split; [done|]. split; [done|]. by eapply parsePort_Ok.
Qed.

Lemma portalFor_extract h portalUrl :
  plainHost h = true → portalFor h portalUrl →
  ∃ u, URL_new (ensureUrlPrefix portalUrl) = Ok u ∧ hostname u = h.
Proof. by intros _ [Hread _]. Qed.

Lemma portalFor_build h portalUrl :
  plainHost h = true → portalFor h portalUrl →
  ∃ scheme pt,
    (scheme = "http" ∨ scheme = "https")
    ∧ (pt = "" ∨ portInFragment scheme pt = true)
    ∧ ∀ d, plainHost (d +:+ "." +:+ h) = true →
        addUrlSubdomain (ensureUrlPrefix (trimUriPrefix portalUrl "http://")) d
        = Ok (originString scheme (d +:+ "." +:+ h) pt).
Proof.
  intros Hh [_ (u & Hu & Hhost & Hpath)].
  destruct (URL_new_Ok _ _ Hu) as (scheme & Hscheme & Hprotocol & Hpt).
  exists scheme, (port u). split; [done|]. split; [done|].
  intros d Hdh.
  destruct (plainHost_facts _ Hdh) as (_ & _ & Hfrag & Hlow & _).
  unfold addUrlSubdomain. rewrite Hu. cbn [mbind Result_bind]. rewrite Hhost.
  unfold URL_set_hostname. rewrite Hfrag, Hlow. cbn [mbind Result_bind].
  rewrite Hprotocol, Hpath, URL_toString_origin. f_equal.
  apply trimSuffix_once; [apply stripSuffix_app|].
  by apply originString_no_trailing_slash.
Qed.

Lemma trimUriPrefix_not_schemePrefixed s :
  schemePrefixed s = false → trimUriPrefix s "http://" = s.
Proof.
  intros Hs. unfold trimUriPrefix.
  destruct (stripPrefix "http://" s) as [r|] eqn:Hr; [|done].
  apply stripPrefix_Some in Hr. subst s.
  destruct r; discriminate Hs.
Qed.

(** The portal URLs as they are usually written are portals in this sense:
    [https://h], [http://h] and the bare host name [h], each with or without
    a port and with or without a slash at the end.  (Only a bare host name
    that reads as a scheme, such as [http:8080], is none.) *)
Lemma portalFor_origin h pt tail :
  plainHost h = true →
  pt = "" ∨ (portInFragment "http" pt = true ∧ portInFragment "https" pt = true) →
  tail = "" ∨ tail = "/" →
  portalFor h ("https://" +:+ h +:+ portPart pt +:+ tail)
  ∧ (schemePrefixed (h +:+ portPart pt +:+ tail) = false →
     portalFor h ("http://" +:+ h +:+ portPart pt +:+ tail)
     ∧ portalFor h (h +:+ portPart pt +:+ tail)).
Proof.
  intros Hh Hpt Htail.
  assert (Hpt1 : pt = "" ∨ portInFragment "http" pt = true) by tauto.
  assert (Hpt2 : pt = "" ∨ portInFragment "https" pt = true) by tauto.
  pose proof (URL_new_origin "http" h pt tail ltac:(auto) Hh Hpt1 Htail) as Hhttp.
  pose proof (URL_new_origin "https" h pt tail ltac:(auto) Hh Hpt2 Htail) as Hhttps.
  destruct (plainHost_facts h Hh) as (_ & Hchars & _).
  set (rest := h +:+ portPart pt +:+ tail) in *.
  change ("http" +:+ "://" +:+ rest) with ("http://" +:+ rest) in Hhttp.
  change ("https" +:+ "://" +:+ rest) with ("https://" +:+ rest) in Hhttps.
  (* what [ensureUrlPrefix] makes of the bare host *)
  assert (Hbare : schemePrefixed rest = false →
    ∃ u, URL_new (ensureUrlPrefix rest) = Ok u ∧ hostname u = h ∧ pathname u = "/").
  { intros Hs. destruct (decide (rest = "localhost")) as [Hl|Hl].
    - assert (h = "localhost") as ->.
      { destruct (afterHost_cases pt tail "http" Hpt1 Htail)
          as (_ & [Hafter | (c & r & Hafter & Hc)] & _).
        - unfold rest in Hl. rewrite Hafter, app_empty_r in Hl. done.
        - assert (Hall : allChars isHostChar rest = true) by (by rewrite Hl).
          unfold rest in Hall. rewrite Hafter, allChars_app in Hall.
          cbn [allChars] in Hall. rewrite Hc in Hall.
          by rewrite andb_false_r in Hall. }
      rewrite Hl. eexists. split; [vm_compute; reflexivity|]. done.
    - rewrite ensureUrlPrefix_other by done. eauto. }
  split; [|intros Hs; split].
  - split.
    + rewrite ensureUrlPrefix_https. eauto.
    + change (trimUriPrefix ("https://" +:+ rest) "http://")
        with ("https://" +:+ rest).
      rewrite ensureUrlPrefix_https. eauto.
  - split.
    + rewrite ensureUrlPrefix_http. eauto.
    + unfold trimUriPrefix. rewrite stripPrefix_app. by apply Hbare.
  - split.
    + destruct (Hbare Hs) as (u & Hu & Hhost & _). eauto.
    + rewrite trimUriPrefix_not_schemePrefixed by done. by apply Hbare.
Qed.

(** A given string is a portal with host name [h]: run the two parsers. *)
Ltac portal_by_computation :=
  (split; eexists; (split; [vm_compute; reflexivity|]));
  [reflexivity | split; reflexivity].

(** Among the portals with host name [portal.example]: the bare host name,
    [http] with a port, a slash at the end, and capital letters. *)
Example portalFor_forms :
  portalFor "portal.example" "portal.example"
  ∧ portalFor "portal.example" "http://portal.example:8080"
  ∧ portalFor "portal.example" "https://portal.example/"
  ∧ portalFor "portal.example" "HTTPS://Portal.Example".
Proof.
  split; [|split; [|split]]; portal_by_computation.
Qed.

(** *** Building and reading back a subdomain URL *)

Lemma label_no_scheme_prefix d :
  allChars isHostChar d = true → trimUriPrefix d URI_S5_PREFIX = d.
Proof.
  intros Hd. unfold trimUriPrefix.
  destruct (stripPrefix URI_S5_PREFIX d) as [r|] eqn:Hr; [|done].
  apply stripPrefix_Some in Hr. rewrite Hr, allChars_app in Hd. discriminate Hd.
Qed.

Lemma hostChars_no_slash s :
  allChars isHostChar s = true → allChars (λ c, negb (isChar "/" c)) s = true.
Proof.
  apply allChars_impl. intros c Hc.
  apply hostChar_facts in Hc as (_ & _ & -> & _). done.
Qed.

Lemma getFullDomainUrlForPortal_label portalUrl d :
  allChars isHostChar d = true → d ≠ "localhost" →
  getFullDomainUrlForPortal portalUrl d
  = addUrlSubdomain (ensureUrlPrefix (trimUriPrefix portalUrl "http://")) d.
Proof.
  intros Hd Hl. unfold getFullDomainUrlForPortal.
  rewrite (label_no_scheme_prefix d Hd).
  rewrite (trimForwardSlash_noop d) by (by apply hostChars_no_slash).
  rewrite (splitSlashRest_no_slash d) by (by apply hostChars_no_slash).
  rewrite bool_decide_eq_false_2 by done.
  by destruct (addUrlSubdomain _ d).
Qed.

Lemma label_no_trailing_dot d h :
  includes ("." +:+ (d +:+ "." +:+ h) +:+ ".") ".." = false →
  stripSuffix "." d = None.
Proof.
  intros Hinc. destruct (stripSuffix "." d) as [a|] eqn:Ha; [|done].
  apply stripSuffix_Some in Ha. subst d.
  replace ("." +:+ ((a +:+ ".") +:+ "." +:+ h) +:+ ".")
    with (("." +:+ a) +:+ ".." +:+ (h +:+ ".")) in Hinc
    by (rewrite !app_assoc_string; reflexivity).
  by rewrite includes_app in Hinc.
Qed.

Lemma extractDomainForPortal_origin portalUrl scheme h pt d :
  scheme = "http" ∨ scheme = "https" →
  plainHost h = true →
  plainHost (d +:+ "." +:+ h) = true →
  pt = "" ∨ portInFragment scheme pt = true →
  (∃ u, URL_new (ensureUrlPrefix portalUrl) = Ok u ∧ hostname u = h) →
  extractDomainForPortal portalUrl (originString scheme (d +:+ "." +:+ h) pt) = Ok d.
Proof.
  intros Hscheme Hh Hdh Hpt (u & Hu & Hhost).
  destruct (plainHost_facts _ Hh) as (_ & Hchars & _).
  destruct (plainHost_facts _ Hdh) as (_ & _ & _ & _ & Hlabels).
  unfold extractDomainForPortal.
  pose proof (URL_new_origin scheme (d +:+ "." +:+ h) pt "" Hscheme Hdh Hpt
                (or_introl eq_refl)) as Hnew.
  rewrite app_empty_r in Hnew. fold (originString scheme (d +:+ "." +:+ h) pt) in Hnew.
  rewrite Hnew. cbn [mbind Result_bind tryCatch hostname pathname].
  rewrite Hu. cbn [mbind Result_bind]. rewrite Hhost.
  rewrite (trimForwardSlash_noop h) by (by apply hostChars_no_slash).
  change (trimForwardSlash "/") with "".
  rewrite bool_decide_eq_true_2 by done. f_equal.
  rewrite (trimSuffix_limit_1 _ _ (d +:+ "."))
    by (rewrite <-app_assoc_string; apply stripSuffix_app).
  apply trimSuffix_once; [apply stripSuffix_app|].
  by eapply label_no_trailing_dot.
Qed.

Lemma extractDomainForPortal_localhost portalUrl h :
  plainHost h = true →
  endsWith "localhost" h = false →
  (∃ u, URL_new (ensureUrlPrefix portalUrl) = Ok u ∧ hostname u = h) →
  extractDomainForPortal portalUrl "localhost" = Ok "localhost".
Proof.
  intros Hh Hends (u & Hu & Hhost).
  destruct (plainHost_facts _ Hh) as (_ & Hchars & _).
  unfold extractDomainForPortal.
  change (URL_new "localhost") with (@Throw URL (TypeError "Invalid URL")).
  cbn [mbind Result_bind tryCatch].
  change (trimForwardSlash "localhost") with "localhost".
  change (splitSlashRest "localhost") with ("localhost", @None string).
  cbn [mbind Result_bind]. rewrite Hu. cbn [mbind Result_bind]. rewrite Hhost.
  rewrite (trimForwardSlash_noop h) by (by apply hostChars_no_slash).
  change (toLowerCase "localhost") with "localhost".
  rewrite (trimSuffix_None "localhost" h).
  - reflexivity.
  - unfold endsWith in Hends. apply bool_decide_eq_false_1 in Hends.
    destruct (stripSuffix h "localhost"); [|done]. exfalso. apply Hends. eauto.
Qed.

(** *** The domain resolver *)

Example getFullDomainUrlForPortal_path :
  getFullDomainUrlForPortal "https://portal.example" "abc.hns/dir/file"
  = Ok "https://abc.hns.portal.example/dir/file".
Proof. vm_compute. reflexivity. Qed.

Example getFullDomainUrlForPortal_localhost :
  getFullDomainUrlForPortal "https://portal.example" "localhost" = Ok "localhost".
Proof. vm_compute. reflexivity. Qed.

Example extractDomainForPortal_path :
  extractDomainForPortal "https://siasky.net" "dac.hns.siasky.net/path/file"
  = Ok "dac.hns/path/file".
Proof. vm_compute. reflexivity. Qed.

(** C3, as the claim has it, fails, in three ways.  Host names are caseless:
    the URL parser lowercases them, and the domain [ABC] comes back as
    [abc].  A path of the portal URL stays in the URL that is built and is
    read back as a path of the domain.  And the portal host is cut off the
    end of whatever comes back, also off the literal [localhost] that stands
    for itself. *)
Lemma roundtrip_fails :
  getFullDomainUrlForPortal "https://portal.example" "ABC"
  = Ok "https://abc.portal.example"
  ∧ extractDomainForPortal "https://portal.example" "https://abc.portal.example"
    = Ok "abc"
  ∧ (¬ ∃ url,
        getFullDomainUrlForPortal "https://portal.example" "ABC" = Ok url
        ∧ extractDomainForPortal "https://portal.example" url = Ok "ABC")
  ∧ getFullDomainUrlForPortal "https://portal.example/base" "abc"
    = Ok "https://abc.portal.example/base"
  ∧ extractDomainForPortal "https://portal.example/base"
      "https://abc.portal.example/base" = Ok "abc/base"
  ∧ getFullDomainUrlForPortal "https://host" "localhost" = Ok "localhost"
  ∧ extractDomainForPortal "https://host" "localhost" = Ok "local".
Proof.
  assert (H1 : getFullDomainUrlForPortal "https://portal.example" "ABC"
               = Ok "https://abc.portal.example") by (vm_compute; reflexivity).
  assert (H2 : extractDomainForPortal "https://portal.example"
                 "https://abc.portal.example" = Ok "abc")
    by (vm_compute; reflexivity).
  split; [done|]. split; [done|]. split.
  { intros (url & Hurl & Hback). rewrite H1 in Hurl. injection Hurl as <-.
    rewrite H2 in Hback. discriminate Hback. }
  split; [vm_compute; reflexivity|]. split; [vm_compute; reflexivity|].
  split; vm_compute; reflexivity.
Qed.

(** C3, as the code has it.  Let [h] be a lowercase host name (letters,
    digits and hyphens in non-empty labels, no [xn--], the last label not
    starting with a digit) and let the portal URL be any string that both
    functions read as a URL with host name [h] and without a path, as [h],
    [http://h] and [https://h] are, with or without a port or a slash at the
    end, also in capital letters.  Let the domain [d] have no path and be
    such that [d.h] is again such a host name.  Unless [d] is
    [localhost] and [h] is an end of the string [localhost], extracting the
    domain from the URL built for [d] gives [d] back. *)
Theorem extract_getFull_roundtrip (h portalUrl d : string) :
  plainHost h = true →
  portalFor h portalUrl →
  plainHost (d +:+ "." +:+ h) = true →
  (d = "localhost" → endsWith "localhost" h = false) →
  ∃ url,
    getFullDomainUrlForPortal portalUrl d = Ok url
    ∧ extractDomainForPortal portalUrl url = Ok d.
Proof.
  intros Hh Hportal Hdh Hlocal.
  pose proof (portalFor_extract h portalUrl Hh Hportal) as Hread.
  destruct (decide (d = "localhost")) as [-> | Hd].
  - exists "localhost". split; [reflexivity|].
    by apply (extractDomainForPortal_localhost portalUrl h); auto.
  - destruct (portalFor_build h portalUrl Hh Hportal)
      as (scheme & pt & Hscheme & Hpt & Hbuild).
    destruct (plainHost_facts _ Hdh) as (_ & Hchars & _).
    rewrite allChars_app in Hchars. apply andb_prop in Hchars as [Hdchars _].
    exists (originString scheme (d +:+ "." +:+ h) pt). split.
    + rewrite getFullDomainUrlForPortal_label by done. by apply Hbuild.
    + by apply extractDomainForPortal_origin.
Qed.

Lemma extract_getFull_roundtrip_witness :
  ∃ url,
    getFullDomainUrlForPortal "HTTP://LocalHost:5522/" "abc.hns" = Ok url
    ∧ extractDomainForPortal "HTTP://LocalHost:5522/" url = Ok "abc.hns".
Proof.
  apply (extract_getFull_roundtrip "localhost" "HTTP://LocalHost:5522/" "abc.hns").
  - reflexivity.
  - portal_by_computation.
  - reflexivity.
  - intros H. discriminate H.
Defined.

(** C10, as the claim has it, fails: [ensureUrlPrefix] turns the bare host
    [localhost] into [http://localhost/], so the portal [http://localhost]
    keeps its scheme. *)
Lemma http_localhost_portal_keeps_scheme :
  getFullDomainUrlForPortal "http://localhost" "abc" = Ok "http://abc.localhost"
  ∧ getFullDomainUrlForPortal "https://localhost" "abc" = Ok "https://abc.localhost"
  ∧ getFullDomainUrlForPortal "http://localhost" "abc"
    ≠ getFullDomainUrlForPortal "https://localhost" "abc".
Proof.
  assert (H1 : getFullDomainUrlForPortal "http://localhost" "abc"
               = Ok "http://abc.localhost") by (vm_compute; reflexivity).
  assert (H2 : getFullDomainUrlForPortal "https://localhost" "abc"
               = Ok "https://abc.localhost") by (vm_compute; reflexivity).
  split; [done|]. split; [done|]. rewrite H1, H2. discriminate.
Qed.

(** C10, as the code has it.  For a portal URL [http://rest] whose [rest] is
    not [localhost] and does not itself start with [http:] or [https:] (in
    any mix of cases), the [http://] prefix is stripped and [https://] is put
    in front, so that the URL built for any domain is the one built for the
    portal [https://rest]. *)
Theorem getFullDomainUrlForPortal_http_portal (rest domain : string) :
  rest ≠ "localhost" →
  schemePrefixed rest = false →
  ensureUrlPrefix (trimUriPrefix ("http://" +:+ rest) "http://") = "https://" +:+ rest
  ∧ ensureUrlPrefix (trimUriPrefix ("https://" +:+ rest) "http://")
    = "https://" +:+ rest
  ∧ getFullDomainUrlForPortal ("http://" +:+ rest) domain
    = getFullDomainUrlForPortal ("https://" +:+ rest) domain.
Proof.
  intros Hl Hs.
  assert (H1 : ensureUrlPrefix (trimUriPrefix ("http://" +:+ rest) "http://")
               = "https://" +:+ rest).
  { unfold trimUriPrefix. rewrite stripPrefix_app. by apply ensureUrlPrefix_other. }
  assert (H2 : ensureUrlPrefix (trimUriPrefix ("https://" +:+ rest) "http://")
               = "https://" +:+ rest).
  { change (trimUriPrefix ("https://" +:+ rest) "http://")
      with ("https://" +:+ rest). apply ensureUrlPrefix_https. }
  split; [done|]. split; [done|].
  unfold getFullDomainUrlForPortal. by rewrite H1, H2.
Qed.

Lemma getFullDomainUrlForPortal_http_portal_witness :
  ensureUrlPrefix (trimUriPrefix ("http://" +:+ "portal.example") "http://")
  = "https://" +:+ "portal.example"
  ∧ ensureUrlPrefix (trimUriPrefix ("https://" +:+ "portal.example") "http://")
    = "https://" +:+ "portal.example"
  ∧ getFullDomainUrlForPortal ("http://" +:+ "portal.example") "abc.hns/dir/file"
    = getFullDomainUrlForPortal ("https://" +:+ "portal.example") "abc.hns/dir/file".
Proof.
  apply (getFullDomainUrlForPortal_http_portal "portal.example" "abc.hns/dir/file").
  - intros H. discriminate H.
  - reflexivity.
Defined.

(** * Further properties *)

(** ** The partitioner: alignment and balance *)

Lemma sumZ_divide c l : (∀ x, x ∈ l → (c | x)) → (c | sumZ l).
Proof.
  induction l as [|a l IH]; intros H.
  - apply Z.divide_0_r.
  - rewrite sumZ_cons. apply Z.divide_add_r.
    + apply H. left.
    + apply IH. intros x Hx. apply H. by right.
Qed.

Lemma bucketSize_aligned totalSize partCount chunkSize k :
  k ≠ leftoverIndex totalSize partCount chunkSize →
  (chunkSize | bucketSize totalSize partCount chunkSize k).
Proof.
  intros Hk. unfold bucketSize. rewrite bool_decide_eq_false_2 by done.
  rewrite Z.add_0_r. apply Z.divide_factor_l.
Qed.

Lemma bucketSize_after_leftover totalSize partCount chunkSize k :
  1 ≤ chunkSize → 0 ≤ totalSize →
  leftoverIndex totalSize partCount chunkSize < k < partCount →
  bucketSize totalSize partCount chunkSize k = 0.
Proof.
  intros Hc Ht Hk. unfold bucketSize, leftoverIndex in *.
  assert (0 ≤ totalSize / chunkSize) by (apply Z.div_pos; lia).
  rewrite roundRobinCount_unvisited by lia.
  rewrite bool_decide_eq_false_2 by lia. lia.
Qed.

Lemma bucketSize_bounds totalSize partCount chunkSize k :
  1 ≤ partCount → 1 ≤ chunkSize → 0 ≤ totalSize → 0 ≤ k < partCount →
  let q := totalSize / chunkSize / partCount in
  chunkSize * q ≤ bucketSize totalSize partCount chunkSize k ≤ chunkSize * (q + 1).
Proof.
  intros Hpc Hc Ht Hk q. unfold bucketSize, leftoverIndex.
  set (n := totalSize / chunkSize) in *.
  assert (Hn : 0 ≤ n) by (apply Z.div_pos; lia).
  rewrite roundRobinCount_closed by lia. rewrite Z2Nat.id by lia. fold q.
  pose proof (Z.mod_pos_bound totalSize chunkSize ltac:(lia)) as Hm.
  pose proof (Z.mod_pos_bound n partCount ltac:(lia)) as Hr.
  pose proof (Z.div_mod n partCount ltac:(lia)) as Hdm. fold q in Hdm.
  assert (Hq : 0 ≤ q) by (apply Z.div_pos; lia).
  (* the bucket of the leftover is never one of those with an extra chunk *)
  case_bool_decide as Hli; case_bool_decide as Hlt; nia.
Qed.

(** X1.  On valid integer input with [partCount < 2^32] and
    [totalSize < 2^53] every non-empty part starts at a multiple of
    [chunkSize], and a part that ends off a chunk boundary is followed by
    empty parts only: the unaligned leftover sits in the last non-empty
    part. *)
Theorem split_starts_aligned totalSize partCount chunkSize :
  1 ≤ partCount < 2 ^ 32 → 1 ≤ chunkSize → chunkSize < totalSize < 2 ^ 53 →
  ∃ parts,
    splitSizeIntoChunkAlignedParts totalSize partCount chunkSize = Ok parts
    ∧ (∀ i p, parts !! i = Some p → start p < end_ p → (chunkSize | start p))
    ∧ (∀ i j p q, parts !! i = Some p → ¬ (chunkSize | end_ p) →
         (i < j)%nat → parts !! j = Some q → start q = end_ q).
Proof.
  intros Hpc Hc Ht.
  destruct (split_valid_sizes totalSize partCount chunkSize Hpc Hc Ht)
    as (parts & Hrun & Hlen & Hparts & Hsum).
  set (li := leftoverIndex totalSize partCount chunkSize).
  assert (Hli : 0 ≤ li < partCount).
  { unfold li, leftoverIndex.
    assert (0 ≤ totalSize / chunkSize) by (apply Z.div_pos; lia). lia. }
  assert (Hprefix : ∀ i, Z.of_nat i ≤ li →
            (chunkSize | sumZ (take i (partSize <$> parts)))).
  { intros i Hi. apply sumZ_divide. intros x Hx.
    apply list_elem_of_lookup in Hx as [k Hk].
    apply lookup_take_Some in Hk as [Hk Hki].
    rewrite list_lookup_fmap in Hk.
    destruct (parts !! k) as [p|] eqn:Hp; [|done]. injection Hk as <-.
    destruct (Hparts _ _ Hp) as (_ & _ & _ & ->).
    apply bucketSize_aligned. fold li. lia. }
  assert (Hempty : ∀ j q, li < Z.of_nat j → parts !! j = Some q →
            start q = end_ q).
  { intros j q Hj Hq. destruct (Hparts _ _ Hq) as (Hjlt & _ & _ & Hsz).
    rewrite bucketSize_after_leftover in Hsz by (fold li; lia).
    unfold partSize in Hsz. lia. }
  exists parts. split; [done|]. split.
  - intros i p Hp Hne.
    destruct (decide (Z.of_nat i ≤ li)) as [Hi|Hi].
    + destruct (Hparts _ _ Hp) as (_ & -> & _). by apply Hprefix.
    + pose proof (Hempty i p ltac:(lia) Hp). lia.
  - intros i j p q Hp Hend Hij Hq. apply (Hempty j q); [|done].
    destruct (decide (Z.of_nat (S i) ≤ li)) as [Hi|Hi]; [|lia].
    exfalso. apply Hend.
    destruct (Hparts _ _ Hp) as (_ & _ & -> & _). by apply Hprefix.
Qed.

Lemma split_starts_aligned_witness :
  ∃ parts,
    splitSizeIntoChunkAlignedParts 25 4 10 = Ok parts
    ∧ (∀ i p, parts !! i = Some p → start p < end_ p → (10 | start p))
    ∧ (∀ i j p q, parts !! i = Some p → ¬ (10 | end_ p) →
         (i < j)%nat → parts !! j = Some q → start q = end_ q).
Proof. apply (split_starts_aligned 25 4 10); lia. Defined.

(** X2.  On valid integer input with [partCount < 2^32] and
    [totalSize < 2^53] the parts are balanced to within one chunk: no part
    is larger than another by more than [chunkSize], the leftover
    included. *)
Theorem split_balanced totalSize partCount chunkSize :
  1 ≤ partCount < 2 ^ 32 → 1 ≤ chunkSize → chunkSize < totalSize < 2 ^ 53 →
  ∃ parts,
    splitSizeIntoChunkAlignedParts totalSize partCount chunkSize = Ok parts
    ∧ ∀ i j p q, parts !! i = Some p → parts !! j = Some q →
        partSize p - partSize q ≤ chunkSize.
Proof.
  intros Hpc Hc Ht.
  destruct (split_valid_sizes totalSize partCount chunkSize Hpc Hc Ht)
    as (parts & Hrun & Hlen & Hparts & Hsum).
  exists parts. split; [done|]. intros i j p q Hp Hq.
  destruct (Hparts _ _ Hp) as (Hi & _ & _ & ->).
  destruct (Hparts _ _ Hq) as (Hj & _ & _ & ->).
  pose proof (bucketSize_bounds totalSize partCount chunkSize (Z.of_nat i)
                (proj1 Hpc) Hc ltac:(lia) ltac:(lia)) as Hbi.
  pose proof (bucketSize_bounds totalSize partCount chunkSize (Z.of_nat j)
                (proj1 Hpc) Hc ltac:(lia) ltac:(lia)) as Hbj.
  cbv zeta in Hbi, Hbj. lia.
Qed.

Lemma split_balanced_witness :
  ∃ parts,
    splitSizeIntoChunkAlignedParts 105 4 10 = Ok parts
    ∧ ∀ i j p q, parts !! i = Some p → parts !! j = Some q →
        partSize p - partSize q ≤ 10.
Proof. apply (split_balanced 105 4 10); lia. Defined.

(** X3.  With one part the whole object is the part: for [partCount = 1],
    [chunkSize ≥ 1] and an integer size with [chunkSize < totalSize < 2^53]
    the result is the single range [{0, totalSize}]. *)
Theorem split_single_part totalSize chunkSize :
  1 ≤ chunkSize → chunkSize < totalSize < 2 ^ 53 →
  splitSizeIntoChunkAlignedParts totalSize 1 chunkSize = Ok [mkPart 0 totalSize].
Proof.
  intros Hc Ht.
  destruct (split_valid_sizes totalSize 1 chunkSize ltac:(lia) Hc Ht)
    as (parts & Hrun & Hlen & Hparts & Hsum).
  rewrite Hrun. f_equal.
  destruct parts as [|p [|p' parts]]; try done.
  destruct (Hparts 0%nat p eq_refl) as (_ & Hstart & Hend & _).
  cbn [fmap list_fmap take] in Hstart, Hend.
  unfold sumZ in Hstart, Hend, Hsum. cbn in Hstart, Hend, Hsum.
  destruct p as [s e]. cbn in *. f_equal. f_equal; lia.
Qed.

Lemma split_single_part_witness :
  splitSizeIntoChunkAlignedParts 25 1 10 = Ok [mkPart 0 25].
Proof. apply (split_single_part 25 10); lia. Defined.

(** ** The URL algebra: prefixes *)

Lemma startsWith_true s p : startsWith s p = true → ∃ r, s = p +:+ r.
Proof.
  unfold startsWith. intros [r Hr]%bool_decide_eq_true_1.
  exists r. by apply stripPrefix_Some.
Qed.

(** X4.  [ensurePrefix] only ever adds the prefix in front: its result starts
    with the prefix and ends with the given string, a string that already
    starts with the prefix is returned as it is, and applying it twice is
    the same as applying it once. *)
Theorem ensurePrefix_idempotent (str prefix : string) :
  startsWith (ensurePrefix str prefix) prefix = true
  ∧ (ensurePrefix str prefix = str ∨ ensurePrefix str prefix = prefix +:+ str)
  ∧ (startsWith str prefix = true → ensurePrefix str prefix = str)
  ∧ ensurePrefix (ensurePrefix str prefix) prefix = ensurePrefix str prefix.
Proof.
  assert (H1 : startsWith (ensurePrefix str prefix) prefix = true).
  { unfold ensurePrefix. destruct (startsWith str prefix) eqn:Hs; cbn [negb];
      [done | apply startsWith_app]. }
  split; [done|]. split; [|split].
  - unfold ensurePrefix. destruct (startsWith str prefix); cbn [negb]; auto.
  - intros Hs. unfold ensurePrefix. by rewrite Hs.
  - unfold ensurePrefix at 1. by rewrite H1.
Qed.

Lemma ensureUrl_scheme url :
  startsWith (ensureUrl url) "http://" = true
  ∨ startsWith (ensureUrl url) "https://" = true.
Proof.
  unfold ensureUrl. destruct (startsWith url "http://") eqn:Hs; [by left|].
  right. unfold ensurePrefix.
  destruct (startsWith url "https://") eqn:Hs'; cbn [negb];
    [done | apply startsWith_app].
Qed.

(** X5.  Whatever it is given, [ensureUrl] returns a string that starts with
    [http://] or [https://] (in lowercase), and applying it twice is the
    same as applying it once. *)
Theorem ensureUrl_idempotent (url : string) :
  (startsWith (ensureUrl url) "http://" = true
   ∨ startsWith (ensureUrl url) "https://" = true)
  ∧ ensureUrl (ensureUrl url) = ensureUrl url.
Proof.
  split; [apply ensureUrl_scheme|].
  destruct (ensureUrl_scheme url) as [H|H].
  - unfold ensureUrl at 1. by rewrite H.
  - unfold ensureUrl at 1, ensurePrefix. rewrite H. cbn [negb].
    by destruct (startsWith (ensureUrl url) "http://").
Qed.

(** X6.  Whatever it is given, [ensureUrlPrefix] returns a string that starts
    with [http:] or [https:] in some mix of cases, and applying it twice is
    the same as applying it once. *)
Theorem ensureUrlPrefix_idempotent (url : string) :
  schemePrefixed (ensureUrlPrefix url) = true
  ∧ ensureUrlPrefix (ensureUrlPrefix url) = ensureUrlPrefix url.
Proof.
  assert (H : schemePrefixed (ensureUrlPrefix url) = true).
  { unfold ensureUrlPrefix. case_bool_decide; [done|].
    rewrite testAtStart_schemePattern.
    destruct (schemePrefixed url) eqn:Hs; cbn [negb]; done. }
  split; [done|].
  unfold ensureUrlPrefix at 1. rewrite testAtStart_schemePattern, H. cbn [negb].
  case_bool_decide as Hl; [|done].
  rewrite Hl in H. discriminate H.
Qed.

(** X7.  [makeUrl] fails on the empty argument list only, with the validation
    error, and whatever [urljoin] does every URL it returns starts with
    [http://] or [https://]. *)
Theorem makeUrl_result (urljoin : string → string → string) (args : list string) :
  match makeUrl urljoin args with
  | Ok url =>
      args ≠ []
      ∧ (startsWith url "http://" = true ∨ startsWith url "https://" = true)
  | Throw e =>
      args = [] ∧ e = ValidationError "args" "parameter" "non-empty"
  end.
Proof.
  destruct args as [|part parts]; [done|].
  change (makeUrl urljoin (part :: parts))
    with (@Ok string (ensureUrl (foldl urljoin part parts))).
  split; [done|]. apply ensureUrl_scheme.
Qed.

(** ** No trailing slash *)

Lemma stripSuffix_length q s a :
  stripSuffix q s = Some a → String.length s = (String.length a + String.length q)%nat.
Proof. intros ->%stripSuffix_Some. apply length_app_string. Qed.

Lemma trimSuffixLoop_done fuel str suffix :
  suffix ≠ "" → (String.length str < fuel)%nat →
  stripSuffix suffix (trimSuffixLoop fuel str suffix None) = None.
Proof.
  intros Hq. revert str. induction fuel as [|fuel IH]; intros str Hfuel; [lia|].
  cbn [trimSuffixLoop]. destruct (stripSuffix suffix str) as [str'|] eqn:Hs; [|done].
  apply IH. apply stripSuffix_length in Hs.
  destruct suffix; [done|]. cbn [String.length] in Hs. lia.
Qed.

Lemma trimSuffix_done str suffix :
  suffix ≠ "" → stripSuffix suffix (trimSuffix str suffix None) = None.
Proof. intros Hq. apply trimSuffixLoop_done; [done|lia]. Qed.

Lemma trimSuffix_slash_endsWith str :
  endsWith (trimSuffix str "/" None) "/" = false.
Proof.
  unfold endsWith. rewrite trimSuffix_done by done.
  apply bool_decide_eq_false_2. by intros [? ?].
Qed.

Lemma addPath_trimmed url path result :
  addPath url path = Ok result → endsWith result "/" = false.
Proof.
  unfold addPath.
  destruct (if bool_decide (url = "localhost") then _ else _) as [str|];
    [|done].
  cbn [mbind Result_bind]. intros [= <-]. apply trimSuffix_slash_endsWith.
Qed.

Lemma addUrlSubdomain_trimmed url subdomain result :
  addUrlSubdomain url subdomain = Ok result → endsWith result "/" = false.
Proof.
  unfold addUrlSubdomain.
  destruct (URL_new url) as [u|]; [|done]. cbn [mbind Result_bind].
  destruct (URL_set_hostname u _) as [u'|]; [|done]. cbn [mbind Result_bind].
  intros [= <-]. apply trimSuffix_slash_endsWith.
Qed.

(** X8.  A URL built by [addPath] or [addUrlSubdomain] never ends in a
    slash. *)
Theorem addPath_no_trailing_slash :
  (∀ url path result, addPath url path = Ok result → endsWith result "/" = false)
  ∧ (∀ url subdomain result,
       addUrlSubdomain url subdomain = Ok result → endsWith result "/" = false).
Proof. split; [apply addPath_trimmed | apply addUrlSubdomain_trimmed]. Qed.

(** X9.  Whatever the portal and the domain, a URL that
    [getFullDomainUrlForPortal] returns never ends in a slash. *)
Theorem getFullDomainUrlForPortal_no_trailing_slash (portalUrl domain url : string) :
  getFullDomainUrlForPortal portalUrl domain = Ok url → endsWith url "/" = false.
Proof.
  unfold getFullDomainUrlForPortal.
  destruct (splitSlashRest _) as [d path].
  assert (Hbase : ∀ base,
    (if bool_decide (d = "localhost") then Ok "localhost"
     else addUrlSubdomain
            (ensureUrlPrefix (trimUriPrefix portalUrl "http://")) d) = Ok base →
    endsWith base "/" = false).
  { intros base. case_bool_decide; [by intros [= <-]|].
    apply addUrlSubdomain_trimmed. }
  destruct (if bool_decide (d = "localhost") then _ else _) as [base|]; [|done].
  cbn [mbind Result_bind]. specialize (Hbase base eq_refl).
  destruct path as [path|]; [|by intros [= <-]].
  case_bool_decide; [by intros [= <-]|]. apply addPath_trimmed.
Qed.

Lemma getFullDomainUrlForPortal_no_trailing_slash_witness :
  endsWith "https://abc.hns.portal.example/dir" "/" = false.
Proof.
  apply (getFullDomainUrlForPortal_no_trailing_slash
           "https://portal.example/" "/abc.hns/dir//").
  vm_compute. reflexivity.
Defined.

(** ** Subdomains of subdomains, and URLs that are not under the portal *)

Lemma originString_tail scheme h pt : originString scheme h pt +:+ "" = originString scheme h pt.
Proof. apply app_empty_r. Qed.

Lemma addUrlSubdomain_origin_bare scheme h pt d :
  scheme = "http" ∨ scheme = "https" →
  plainHost h = true →
  pt = "" ∨ portInFragment scheme pt = true →
  plainHost (d +:+ "." +:+ h) = true →
  addUrlSubdomain (originString scheme h pt) d
  = Ok (originString scheme (d +:+ "." +:+ h) pt).
Proof.
  intros Hscheme Hh Hpt Hdh.
  rewrite <-(originString_tail scheme h pt) at 1.
  apply addUrlSubdomain_origin; auto.
Qed.

(** X10.  Adding subdomains nests: adding [a] and then [b] to the URL of an
    origin is adding [b.a] at once, as long as the host names that arise are
    lowercase host names of the fragment. *)
Theorem addUrlSubdomain_nested (scheme h pt a b : string) :
  scheme = "http" ∨ scheme = "https" →
  plainHost h = true →
  pt = "" ∨ portInFragment scheme pt = true →
  plainHost (a +:+ "." +:+ h) = true →
  plainHost (b +:+ "." +:+ a +:+ "." +:+ h) = true →
  (url ← addUrlSubdomain (originString scheme h pt) a; addUrlSubdomain url b)
  = addUrlSubdomain (originString scheme h pt) (b +:+ "." +:+ a)
  ∧ addUrlSubdomain (originString scheme h pt) (b +:+ "." +:+ a)
    = Ok (originString scheme (b +:+ "." +:+ a +:+ "." +:+ h) pt).
Proof.
  intros Hscheme Hh Hpt Hah Hbah.
  rewrite (addUrlSubdomain_origin_bare scheme h pt a) by done.
  cbn [mbind Result_bind].
  rewrite (addUrlSubdomain_origin_bare scheme (a +:+ "." +:+ h) pt b) by done.
  rewrite (addUrlSubdomain_origin_bare scheme h pt (b +:+ "." +:+ a))
    by (by rewrite ?app_assoc_string).
  by rewrite !app_assoc_string.
Qed.

Lemma addUrlSubdomain_nested_witness :
  (url ← addUrlSubdomain (originString "https" "portal.example" "8080") "hns";
   addUrlSubdomain url "app")
  = addUrlSubdomain (originString "https" "portal.example" "8080")
      ("app" +:+ "." +:+ "hns")
  ∧ addUrlSubdomain (originString "https" "portal.example" "8080")
      ("app" +:+ "." +:+ "hns")
    = Ok (originString "https" ("app" +:+ "." +:+ "hns" +:+ "." +:+ "portal.example")
            "8080").
Proof.
  apply (addUrlSubdomain_nested "https" "portal.example" "8080" "hns" "app").
  - right. reflexivity.
  - reflexivity.
  - right. reflexivity.
  - reflexivity.
  - reflexivity.
Defined.

Lemma extractDomainForPortal_host portalUrl scheme h g pt :
  scheme = "http" ∨ scheme = "https" →
  plainHost h = true →
  plainHost g = true →
  pt = "" ∨ portInFragment scheme pt = true →
  (∃ u, URL_new (ensureUrlPrefix portalUrl) = Ok u ∧ hostname u = h) →
  extractDomainForPortal portalUrl (originString scheme g pt)
  = Ok (trimSuffix (trimSuffix g h (Some 1%nat)) "." None).
Proof.
  intros Hscheme Hh Hg Hpt (u & Hu & Hhost).
  destruct (plainHost_facts _ Hh) as (_ & Hchars & _).
  unfold extractDomainForPortal.
  pose proof (URL_new_origin scheme g pt "" Hscheme Hg Hpt (or_introl eq_refl))
    as Hnew.
  rewrite app_empty_r in Hnew. fold (originString scheme g pt) in Hnew.
  rewrite Hnew. cbn [mbind Result_bind tryCatch hostname pathname].
  rewrite Hu. cbn [mbind Result_bind]. rewrite Hhost.
  rewrite (trimForwardSlash_noop h) by (by apply hostChars_no_slash).
  change (trimForwardSlash "/") with "".
  by rewrite bool_decide_eq_true_2.
Qed.

Lemma plainHost_no_trailing_dot g :
  plainHost g = true → stripSuffix "." g = None.
Proof.
  intros Hg. destruct (plainHost_facts _ Hg) as (_ & _ & _ & _ & Hlabels).
  destruct (stripSuffix "." g) as [a|] eqn:Ha; [|done].
  apply stripSuffix_Some in Ha. subst g.
  replace ("." +:+ (a +:+ ".") +:+ ".") with (("." +:+ a) +:+ ".." +:+ "")
    in Hlabels by (rewrite !app_assoc_string; reflexivity).
  by rewrite includes_app in Hlabels.
Qed.

(** X11.  Read against a portal with host [h], the URL of the portal's own
    origin has the empty domain, and a URL whose host does not end with [h]
    keeps its whole host as the domain. *)
Theorem extractDomainForPortal_not_under_portal (h portalUrl scheme g pt : string) :
  plainHost h = true →
  portalFor h portalUrl →
  scheme = "http" ∨ scheme = "https" →
  pt = "" ∨ portInFragment scheme pt = true →
  plainHost g = true →
  extractDomainForPortal portalUrl (originString scheme h pt) = Ok ""
  ∧ (endsWith g h = false →
     extractDomainForPortal portalUrl (originString scheme g pt) = Ok g).
Proof.
  intros Hh Hportal Hscheme Hpt Hg.
  pose proof (portalFor_extract h portalUrl Hh Hportal) as Hread.
  split.
  - rewrite (extractDomainForPortal_host portalUrl scheme h h pt) by done.
    f_equal.
    rewrite (trimSuffix_limit_1 h h "")
      by (rewrite <-(app_empty_l h) at 2; apply stripSuffix_app).
    reflexivity.
  - intros Hends.
    rewrite (extractDomainForPortal_host portalUrl scheme h g pt) by done.
    f_equal.
    assert (stripSuffix h g = None) as Hnone.
    { unfold endsWith in Hends. apply bool_decide_eq_false_1 in Hends.
      destruct (stripSuffix h g); [|done]. exfalso. apply Hends. eauto. }
    rewrite (trimSuffix_None g h) by done.
    apply trimSuffix_None. by apply plainHost_no_trailing_dot.
Qed.

Lemma extractDomainForPortal_not_under_portal_witness :
  extractDomainForPortal "https://portal.example"
    (originString "http" "portal.example" "8080") = Ok ""
  ∧ (endsWith "other.example" "portal.example" = false →
     extractDomainForPortal "https://portal.example"
       (originString "http" "other.example" "8080") = Ok "other.example").
Proof.
  apply (extractDomainForPortal_not_under_portal
           "portal.example" "https://portal.example" "http" "other.example" "8080").
  - reflexivity.
  - portal_by_computation.
  - left. reflexivity.
  - right. reflexivity.
  - reflexivity.
Defined.

(** ** Domains with a path *)

Lemma pathChar_facts c :
  isPathChar c = true →
  isPrintable c = true ∧ isLineTerminator c = false.
Proof. destruct c as [[] [] [] [] [] [] [] []]; intros H; try discriminate H; done. Qed.

Lemma pathInFragment_facts t :
  pathInFragment t = true →
  (∃ t', t = String "/" t') ∧ allChars isPathChar t = true
  ∧ allChars isPrintable t = true.
Proof.
  unfold pathInFragment. intros H. repeat (apply andb_prop in H as [H ?]).
  split; [|split; [done|]].
  - apply startsWith_true in H as [r ->]. by exists r.
  - eapply allChars_impl; [|eassumption]. intros c Hc. by apply pathChar_facts.
Qed.

Lemma plainPath_facts p :
  plainPath p = true →
  (∃ c p', p = String c p' ∧ isChar "/" c = false)
  ∧ stripSuffix "/" p = None
  ∧ pathInFragment ("/" +:+ p) = true
  ∧ allChars (λ c, negb (isLineTerminator c)) p = true.
Proof.
  unfold plainPath. intros H.
  apply andb_prop in H as [H Hfrag]. apply andb_prop in H as [H Hend].
  apply andb_prop in H as [Hne Hstart].
  apply negb_true_iff in Hne, Hstart, Hend.
  apply bool_decide_eq_false_1 in Hne.
  pose proof (pathInFragment_facts _ Hfrag) as (_ & Hchars & _).
  rewrite app_String, app_empty_l in Hchars. cbn [allChars] in Hchars.
  apply andb_prop in Hchars as [_ Hchars].
  split; [|split; [|split; [done|]]].
  - destruct p as [|c p']; [done|]. exists c, p'. split; [done|].
    unfold startsWith in Hstart. cbn [stripPrefix] in Hstart.
    unfold isChar. destruct (bool_decide ("/"%char = c)); [|done].
    apply bool_decide_eq_false_1 in Hstart. exfalso. apply Hstart.
    destruct p'; eauto.
  - unfold endsWith in Hend. apply bool_decide_eq_false_1 in Hend.
    destruct (stripSuffix "/" p); [|done]. exfalso. eauto.
  - eapply allChars_impl; [|exact Hchars]. intros c Hc.
    apply pathChar_facts in Hc as [_ ->]. done.
Qed.

Lemma stripSuffix_slash_path prefix p :
  plainPath p = true → stripSuffix "/" (prefix +:+ "/" +:+ p) = None.
Proof.
  intros Hp. destruct (plainPath_facts p Hp) as ((c & p' & -> & _) & Hend & _).
  rewrite stripSuffix_char_app by done.
  rewrite (stripSuffix_char_app "/" "/" (String c p')) by done.
  by rewrite Hend.
Qed.

Lemma trimForwardSlash_path p :
  plainPath p = true →
  trimForwardSlash p = p ∧ trimForwardSlash ("/" +:+ p) = p.
Proof.
  intros Hp. destruct (plainPath_facts p Hp) as ((c & p' & -> & Hc) & Hend & _).
  unfold trimForwardSlash. split.
  - rewrite trimSuffix_None by done. by apply dropWhileChars_stop.
  - rewrite trimSuffix_None
      by (rewrite <-(app_empty_l ("/" +:+ String c p'));
          by apply stripSuffix_slash_path).
    rewrite app_String, app_empty_l.
    rewrite dropWhileChars_skip by reflexivity. by apply dropWhileChars_stop.
Qed.

Lemma label_path_normal d p :
  allChars isHostChar d = true → d ≠ "" → plainPath p = true →
  trimUriPrefix (d +:+ "/" +:+ p) URI_S5_PREFIX = d +:+ "/" +:+ p
  ∧ trimForwardSlash (d +:+ "/" +:+ p) = d +:+ "/" +:+ p
  ∧ splitSlashRest (d +:+ "/" +:+ p) = (d, Some p).
Proof.
  intros Hd Hne Hp.
  destruct (plainPath_facts p Hp) as ((c & p' & Hpe & Hc) & Hend & _ & Hlt).
  split; [|split].
  - unfold trimUriPrefix.
    destruct (stripPrefix URI_S5_PREFIX (d +:+ "/" +:+ p)) as [r|] eqn:Hr; [|done].
    apply stripPrefix_Some in Hr.
    assert (Hspan : spanChars isHostChar (d +:+ "/" +:+ p) = (d, "/" +:+ p))
      by (by apply spanChars_app).
    rewrite Hr in Hspan. discriminate Hspan.
  - unfold trimForwardSlash.
    rewrite trimSuffix_None by (by apply stripSuffix_slash_path).
    destruct d as [|e d']; [done|].
    cbn [allChars] in Hd. apply andb_prop in Hd as [He _].
    apply hostChar_facts in He as (_ & _ & He & _).
    rewrite app_String. by apply dropWhileChars_stop.
  - clear Hne. induction d as [|e d IH].
    + rewrite app_empty_l, app_String, app_empty_l. subst p.
      cbn [splitSlashRest allChars] in *.
      apply andb_prop in Hlt as [Hc' Hlt]. rewrite Hc'.
      change (isChar "/" "/") with true. cbn [andb].
      rewrite (spanChars_all _ (String c p')) by (cbn [allChars]; by rewrite Hc', Hlt).
      done.
    + cbn [allChars] in Hd. apply andb_prop in Hd as [He Hd].
      apply hostChar_facts in He as (_ & _ & He & _).
      rewrite app_String. cbn [splitSlashRest]. rewrite He. cbn [andb].
      by rewrite (IH Hd).
Qed.

Lemma URL_new_origin_path scheme h pt tail :
  scheme = "http" ∨ scheme = "https" →
  plainHost h = true →
  pt = "" ∨ portInFragment scheme pt = true →
  pathInFragment tail = true →
  URL_new (originString scheme h pt +:+ tail)
  = Ok {| protocol := scheme +:+ ":"; hostname := h; port := pt; pathname := tail |}.
Proof.
  intros Hscheme Hh Hpt Htail.
  destruct (plainHost_facts h Hh) as (Hne & Hchars & Hfrag & Hlow & _).
  destruct (pathInFragment_facts tail Htail) as ((t' & Ht) & _ & Htprint).
  assert (Hhprint : allChars isPrintable h = true).
  { eapply allChars_impl; [|exact Hchars]. intros c Hc. by apply hostChar_facts. }
  set (after := portPart pt +:+ tail).
  assert (Hafter : allChars isPrintable after = true
                   ∧ (∃ c rest, after = String c rest ∧ isHostChar c = false)
                   ∧ parsePort scheme after = Ok (pt, tail)).
  { unfold after, portPart. case_bool_decide as Hempty.
    - subst pt tail. rewrite app_empty_l.
      split; [done|]. split; [by eexists _, _|]. reflexivity.
    - destruct Hpt as [?|Hpt]; [done|].
      destruct (portInFragment_digits _ _ Hpt) as [Hdigits _].
      rewrite !app_String, app_empty_l. split; [|split].
      + cbn [allChars]. rewrite allChars_app, Htprint, andb_true_r.
        eapply allChars_impl; [|exact Hdigits]. intros c Hc. by apply digit_facts.
      + by eexists _, _.
      + cbn [parsePort]. subst tail.
        rewrite (spanChars_app isDigit pt "/" t') by done. by rewrite Hpt. }
  destruct Hafter as (Hprint & (c & rest & Hafter & Hc) & Hport).
  assert (Hspan : spanChars isHostChar (h +:+ after) = (h, after))
    by (rewrite Hafter; by apply spanChars_app).
  assert (Hdrop : dropWhileChars isSlash ("//" +:+ h +:+ after) = h +:+ after).
  { destruct h as [|e h']; [done|].
    cbn [allChars] in Hchars. apply andb_prop in Hchars as [He _].
    apply hostChar_facts in He as (_ & He & _).
    rewrite !app_String, app_empty_l.
    rewrite !dropWhileChars_skip by reflexivity.
    by apply dropWhileChars_stop. }
  assert (Hscan : scanScheme (scheme +:+ "://" +:+ h +:+ after)
                  = Some (scheme, "//" +:+ h +:+ after))
    by (by destruct Hscheme as [-> | ->]).
  assert (Hall : allChars isPrintable (scheme +:+ "://" +:+ h +:+ after) = true).
  { rewrite !allChars_app, Hhprint, Hprint. by destruct Hscheme as [-> | ->]. }
  replace (originString scheme h pt +:+ tail)
    with (scheme +:+ "://" +:+ h +:+ after)
    by (unfold originString, after; by rewrite !app_assoc_string).
  unfold URL_new. rewrite Hall. cbn [negb]. rewrite Hscan.
  rewrite bool_decide_eq_true_2 by done.
  rewrite Hdrop, Hspan, Hfrag, Hport. cbn [mbind Result_bind].
  rewrite Hlow. unfold parsePath.
  rewrite bool_decide_eq_false_2 by (subst tail; done).
  by rewrite Htail.
Qed.

Lemma originString_not_localhost scheme h pt :
  scheme = "http" ∨ scheme = "https" → originString scheme h pt ≠ "localhost".
Proof. intros [-> | ->]; discriminate. Qed.

Lemma addPath_onto_path scheme h pt old p :
  scheme = "http" ∨ scheme = "https" →
  plainHost h = true →
  pt = "" ∨ portInFragment scheme pt = true →
  old = "" ∨ old = "/" ∨ pathInFragment old = true →
  plainPath p = true →
  addPath (originString scheme h pt +:+ old) p
  = Ok (originString scheme h pt +:+ "/" +:+ p).
Proof.
  intros Hscheme Hh Hpt Hold Hp.
  destruct (plainPath_facts p Hp) as ((c & p' & Hpe & Hc) & Hend & Hfrag & _).
  destruct (trimForwardSlash_path p Hp) as [Htrim _].
  unfold addPath. rewrite Htrim.
  rewrite bool_decide_eq_false_2.
  2:{ destruct Hscheme as [-> | ->]; discriminate. }
  assert (∃ oldpath, URL_new (originString scheme h pt +:+ old)
            = Ok {| protocol := scheme +:+ ":"; hostname := h; port := pt;
                    pathname := oldpath |}) as [oldpath ->].
  { destruct Hold as [-> | [-> | Hold]].
    - exists "/". pose proof (URL_new_origin scheme h pt "") as Hnew.
      unfold originString. rewrite !app_assoc_string. apply Hnew; auto.
    - exists "/". pose proof (URL_new_origin scheme h pt "/") as Hnew.
      unfold originString. rewrite !app_assoc_string. apply Hnew; auto.
    - exists old. by apply URL_new_origin_path. }
  cbn [mbind Result_bind]. unfold URL_set_pathname.
  assert (startsWith p "/" = false) as ->.
  { subst p. unfold startsWith. cbn [stripPrefix]. unfold isChar in Hc.
    rewrite Hc. by apply bool_decide_eq_false_2; intros [? ?]. }
  rewrite Hfrag. cbn [mbind Result_bind protocol hostname port pathname].
  rewrite URL_toString_origin. f_equal.
  apply trimSuffix_None. by apply stripSuffix_slash_path.
Qed.

Lemma hostChar_schemeChar c : isHostChar c = true → isSchemeChar c = true.
Proof. destruct c as [[] [] [] [] [] [] [] []]; intros H; try discriminate H; done. Qed.

Lemma scanScheme_bare x rest :
  allChars isHostChar x = true →
  rest = "" ∨ (∃ r, rest = String "/" r) →
  scanScheme (x +:+ rest) = None.
Proof.
  intros Hx Hrest.
  assert (Hspan : spanChars isSchemeChar (x +:+ rest) = (x, rest)).
  { assert (allChars isSchemeChar x = true)
      by (eapply allChars_impl; [apply hostChar_schemeChar | done]).
    destruct Hrest as [-> | [r ->]].
    - rewrite app_empty_r. by apply spanChars_all.
    - by apply spanChars_app. }
  destruct x as [|c x'].
  - rewrite app_empty_l. by destruct Hrest as [-> | [r ->]].
  - rewrite app_String in *. unfold scanScheme.
    destruct (isAsciiAlpha c); [|done]. rewrite Hspan.
    by destruct Hrest as [-> | [r ->]].
Qed.

(** The domain that [extractDomainForPortal] cuts out of a lowercased host. *)
Lemma extractDomainForPortal_bare portalUrl h x :
  plainHost h = true →
  (∃ u, URL_new (ensureUrlPrefix portalUrl) = Ok u ∧ hostname u = h) →
  allChars isHostChar x = true → x ≠ "" →
  let domain := trimSuffix (trimSuffix (toLowerCase x) h (Some 1%nat)) "." None in
  extractDomainForPortal portalUrl x = Ok domain
  ∧ ∀ p, plainPath p = true →
      extractDomainForPortal portalUrl (x +:+ "/" +:+ p)
      = Ok (domain +:+ "/" +:+ p).
Proof.
  intros Hh (u & Hu & Hhost) Hx Hne domain.
  destruct (plainHost_facts _ Hh) as (_ & Hchars & _).
  assert (Hxprint : allChars isPrintable x = true).
  { eapply allChars_impl; [|exact Hx]. intros c Hc. by apply hostChar_facts. }
  split.
  - assert (URL_new x = Throw (TypeError "Invalid URL")) as Hbare.
    { unfold URL_new. rewrite Hxprint. cbn [negb].
      rewrite <-(app_empty_r x) at 1. by rewrite scanScheme_bare by auto. }
    unfold extractDomainForPortal. rewrite Hbare.
    cbn [mbind Result_bind tryCatch].
    rewrite (trimForwardSlash_noop x) by (by apply hostChars_no_slash).
    rewrite (splitSlashRest_no_slash x) by (by apply hostChars_no_slash).
    cbn [mbind Result_bind]. rewrite Hu. cbn [mbind Result_bind]. rewrite Hhost.
    by rewrite (trimForwardSlash_noop h) by (by apply hostChars_no_slash).
  - intros p Hp.
    destruct (plainPath_facts p Hp) as (_ & _ & Hfrag & _).
    destruct (pathInFragment_facts _ Hfrag) as (_ & _ & Hpprint).
    destruct (label_path_normal x p Hx Hne Hp) as (_ & Htrim & Hsplit).
    destruct (trimForwardSlash_path p Hp) as [Htrimp _].
    assert (Hnonempty : p ≠ "")
      by (destruct (plainPath_facts p Hp) as ((? & ? & -> & _) & _); done).
    assert (URL_new (x +:+ "/" +:+ p) = Throw (TypeError "Invalid URL")) as Hbare.
    { unfold URL_new. rewrite allChars_app, Hxprint, Hpprint. cbn [negb andb].
      by rewrite scanScheme_bare by (rewrite ?app_String, ?app_empty_l; eauto). }
    unfold extractDomainForPortal. rewrite Hbare.
    cbn [mbind Result_bind tryCatch]. rewrite Htrim, Hsplit.
    cbn [mbind Result_bind]. rewrite Hu. cbn [mbind Result_bind]. rewrite Hhost.
    rewrite (trimForwardSlash_noop h) by (by apply hostChars_no_slash).
    rewrite bool_decide_eq_false_2 by done. by rewrite Htrimp.
Qed.

Lemma domain_of_subdomain d h :
  plainHost (d +:+ "." +:+ h) = true →
  trimSuffix (trimSuffix (d +:+ "." +:+ h) h (Some 1%nat)) "." None = d.
Proof.
  intros Hdh. destruct (plainHost_facts _ Hdh) as (_ & _ & _ & _ & Hlabels).
  rewrite (trimSuffix_limit_1 _ _ (d +:+ "."))
    by (rewrite <-app_assoc_string; apply stripSuffix_app).
  apply trimSuffix_once; [apply stripSuffix_app|].
  by eapply label_no_trailing_dot.
Qed.

Lemma extractDomainForPortal_origin_path portalUrl scheme h pt d p :
  scheme = "http" ∨ scheme = "https" →
  plainHost h = true →
  plainHost (d +:+ "." +:+ h) = true →
  pt = "" ∨ portInFragment scheme pt = true →
  plainPath p = true →
  (∃ u, URL_new (ensureUrlPrefix portalUrl) = Ok u ∧ hostname u = h) →
  extractDomainForPortal portalUrl
    (originString scheme (d +:+ "." +:+ h) pt +:+ "/" +:+ p)
  = Ok (d +:+ "/" +:+ p).
Proof.
  intros Hscheme Hh Hdh Hpt Hp (u & Hu & Hhost).
  destruct (plainHost_facts _ Hh) as (_ & Hchars & _).
  destruct (plainPath_facts p Hp) as ((c & p' & Hpe & _) & _ & Hfrag & _).
  destruct (trimForwardSlash_path p Hp) as [Htrim Htrim'].
  unfold extractDomainForPortal.
  rewrite (URL_new_origin_path scheme (d +:+ "." +:+ h) pt ("/" +:+ p)) by done.
  cbn [mbind Result_bind tryCatch hostname pathname].
  rewrite Hu. cbn [mbind Result_bind]. rewrite Hhost.
  rewrite (trimForwardSlash_noop h) by (by apply hostChars_no_slash).
  rewrite Htrim'. rewrite bool_decide_eq_false_2 by (subst p; done).
  by rewrite Htrim, domain_of_subdomain.
Qed.

Lemma getFullDomainUrlForPortal_label_path portalUrl h d p :
  plainHost h = true →
  portalFor h portalUrl →
  plainHost (d +:+ "." +:+ h) = true →
  d ≠ "localhost" →
  plainPath p = true →
  ∃ scheme pt,
    (scheme = "http" ∨ scheme = "https")
    ∧ (pt = "" ∨ portInFragment scheme pt = true)
    ∧ getFullDomainUrlForPortal portalUrl (d +:+ "/" +:+ p)
      = Ok (originString scheme (d +:+ "." +:+ h) pt +:+ "/" +:+ p).
Proof.
  intros Hh Hportal Hdh Hd Hp.
  destruct (portalFor_build h portalUrl Hh Hportal)
    as (scheme & pt & Hscheme & Hpt & Hbuild).
  destruct (plainHost_facts _ Hdh) as (_ & Hchars & _ & _ & Hlabels).
  rewrite allChars_app in Hchars. apply andb_prop in Hchars as [Hdchars _].
  assert (Hne : d ≠ "").
  { intros ->. rewrite app_empty_l in Hlabels.
    replace ("." +:+ ("." +:+ h) +:+ ".") with ("" +:+ ".." +:+ (h +:+ "."))
      in Hlabels by reflexivity.
    by rewrite includes_app in Hlabels. }
  destruct (label_path_normal d p Hdchars Hne Hp) as (Hs5 & Htrim & Hsplit).
  assert (Hnonempty : p ≠ "")
    by (destruct (plainPath_facts p Hp) as ((? & ? & -> & _) & _); done).
  exists scheme, pt. split; [done|]. split; [done|].
  unfold getFullDomainUrlForPortal. rewrite Hs5, Htrim, Hsplit.
  rewrite bool_decide_eq_false_2 by done.
  rewrite Hbuild by done. cbn [mbind Result_bind].
  rewrite bool_decide_eq_false_2 by done.
  rewrite <-(originString_tail scheme (d +:+ "." +:+ h) pt) at 1.
  apply addPath_onto_path; auto.
Qed.

Lemma getFullDomainUrlForPortal_localhost_path portalUrl p :
  plainPath p = true →
  getFullDomainUrlForPortal portalUrl ("localhost" +:+ "/" +:+ p)
  = Ok ("localhost" +:+ "/" +:+ p).
Proof.
  intros Hp.
  destruct (label_path_normal "localhost" p eq_refl ltac:(done) Hp)
    as (Hs5 & Htrim & Hsplit).
  destruct (trimForwardSlash_path p Hp) as [Htrimp _].
  assert (Hnonempty : p ≠ "")
    by (destruct (plainPath_facts p Hp) as ((? & ? & -> & _) & _); done).
  unfold getFullDomainUrlForPortal. rewrite Hs5, Htrim, Hsplit.
  rewrite (bool_decide_eq_true_2 ("localhost" = "localhost")) by done.
  cbn [mbind Result_bind].
  rewrite bool_decide_eq_false_2 by done.
  unfold addPath. rewrite Htrimp, bool_decide_eq_true_2 by done.
  cbn [mbind Result_bind]. f_equal.
  change ("localhost/" +:+ p) with ("localhost" +:+ "/" +:+ p).
  apply trimSuffix_None. by apply stripSuffix_slash_path.
Qed.

Lemma localhost_domain_kept h :
  endsWith "localhost" h = false →
  trimSuffix (trimSuffix (toLowerCase "localhost") h (Some 1%nat)) "." None
  = "localhost".
Proof.
  intros Hends. change (toLowerCase "localhost") with "localhost".
  rewrite (trimSuffix_None "localhost" h); [reflexivity|].
  unfold endsWith in Hends. apply bool_decide_eq_false_1 in Hends.
  destruct (stripSuffix h "localhost"); [|done]. exfalso. apply Hends. eauto.
Qed.

(** X12.  The round trip keeps a path.  For a portal that both functions
    read as a URL with the lowercase host name [h] and no path, a domain
    [d] such that [d.h] is again such a host name and a path [p] of plain
    path characters with no slash at either end and no dot segment,
    extracting the domain from the URL built for [d/p] gives [d/p] back
    (unless [d] is [localhost] and [h] is an end of the string
    [localhost]). *)
Theorem extract_getFull_roundtrip_path (h portalUrl d p : string) :
  plainHost h = true →
  portalFor h portalUrl →
  plainHost (d +:+ "." +:+ h) = true →
  plainPath p = true →
  (d = "localhost" → endsWith "localhost" h = false) →
  ∃ url,
    getFullDomainUrlForPortal portalUrl (d +:+ "/" +:+ p) = Ok url
    ∧ extractDomainForPortal portalUrl url = Ok (d +:+ "/" +:+ p).
Proof.
  intros Hh Hportal Hdh Hp Hlocal.
  pose proof (portalFor_extract h portalUrl Hh Hportal) as Hread.
  destruct (decide (d = "localhost")) as [-> | Hd].
  - exists ("localhost" +:+ "/" +:+ p).
    split; [by apply getFullDomainUrlForPortal_localhost_path|].
    destruct (extractDomainForPortal_bare portalUrl h "localhost" Hh Hread
                eq_refl ltac:(done)) as [_ Hpath].
    rewrite (Hpath p Hp). by rewrite localhost_domain_kept by auto.
  - destruct (getFullDomainUrlForPortal_label_path portalUrl h d p
                Hh Hportal Hdh Hd Hp) as (scheme & pt & Hscheme & Hpt & Hbuild).
    eexists. split; [exact Hbuild|].
    by apply extractDomainForPortal_origin_path.
Qed.

Lemma extract_getFull_roundtrip_path_witness :
  ∃ url,
    getFullDomainUrlForPortal "https://siasky.net"
      ("dac.hns" +:+ "/" +:+ "path/File.txt") = Ok url
    ∧ extractDomainForPortal "https://siasky.net" url
      = Ok ("dac.hns" +:+ "/" +:+ "path/File.txt").
Proof.
  apply (extract_getFull_roundtrip_path
           "siasky.net" "https://siasky.net" "dac.hns" "path/File.txt").
  - reflexivity.
  - portal_by_computation.
  - reflexivity.
  - reflexivity.
  - intros H. discriminate H.
Defined.

(** X13.  [addPath] sets the path, it does not append to it: on the URL of an
    origin, adding [p] and then [q] gives the URL with path [q], the same as
    adding [q] alone. *)
Theorem addPath_replaces (scheme h pt p q : string) :
  scheme = "http" ∨ scheme = "https" →
  plainHost h = true →
  pt = "" ∨ portInFragment scheme pt = true →
  plainPath p = true →
  plainPath q = true →
  (url ← addPath (originString scheme h pt) p; addPath url q)
  = addPath (originString scheme h pt) q
  ∧ addPath (originString scheme h pt) q
    = Ok (originString scheme h pt +:+ "/" +:+ q).
Proof.
  intros Hscheme Hh Hpt Hp Hq.
  assert (Hone : ∀ r, plainPath r = true →
            addPath (originString scheme h pt) r
            = Ok (originString scheme h pt +:+ "/" +:+ r)).
  { intros r Hr. rewrite <-(originString_tail scheme h pt) at 1.
    apply addPath_onto_path; auto. }
  rewrite (Hone p Hp), (Hone q Hq). cbn [mbind Result_bind].
  split; [|done].
  apply addPath_onto_path; auto.
  right. right. by destruct (plainPath_facts p Hp) as (_ & _ & ? & _).
Qed.

Lemma addPath_replaces_witness :
  (url ← addPath (originString "https" "portal.example" "") "a/b"; addPath url "c")
  = addPath (originString "https" "portal.example" "") "c"
  ∧ addPath (originString "https" "portal.example" "") "c"
    = Ok (originString "https" "portal.example" "" +:+ "/" +:+ "c").
Proof.
  apply (addPath_replaces "https" "portal.example" "" "a/b" "c").
  - right. reflexivity.
  - reflexivity.
  - left. reflexivity.
  - reflexivity.
  - reflexivity.
Defined.

(** X14.  A full domain given without a scheme takes the fallback branch of
    [extractDomainForPortal]: its host part is lowercased before the portal
    host is cut off, and its path comes back as it was written, letter case
    included. *)
Theorem extractDomainForPortal_bare_domain (h portalUrl x d : string) :
  plainHost h = true →
  portalFor h portalUrl →
  allChars isHostChar x = true →
  toLowerCase x = d +:+ "." +:+ h →
  plainHost (d +:+ "." +:+ h) = true →
  extractDomainForPortal portalUrl x = Ok d
  ∧ ∀ p, plainPath p = true →
      extractDomainForPortal portalUrl (x +:+ "/" +:+ p) = Ok (d +:+ "/" +:+ p).
Proof.
  intros Hh Hportal Hx Hlower Hdh.
  pose proof (portalFor_extract h portalUrl Hh Hportal) as Hread.
  assert (Hne : x ≠ "").
  { intros ->. cbn in Hlower. symmetry in Hlower.
    apply app_eq_empty in Hlower as [_ Hlower]. discriminate Hlower. }
  destruct (extractDomainForPortal_bare portalUrl h x Hh Hread Hx Hne)
    as [Hbare Hpath].
  cbv zeta in Hbare, Hpath. rewrite Hlower, domain_of_subdomain in Hbare, Hpath by done.
  done.
Qed.

Lemma extractDomainForPortal_bare_domain_witness :
  extractDomainForPortal "https://siasky.net" "Dac.HNS.Siasky.NET" = Ok "dac.hns"
  ∧ ∀ p, plainPath p = true →
      extractDomainForPortal "https://siasky.net" ("Dac.HNS.Siasky.NET" +:+ "/" +:+ p)
      = Ok ("dac.hns" +:+ "/" +:+ p).
Proof.
  apply (extractDomainForPortal_bare_domain
           "siasky.net" "https://siasky.net" "Dac.HNS.Siasky.NET" "dac.hns").
  - reflexivity.
  - portal_by_computation.
  - reflexivity.
  - reflexivity.
  - reflexivity.
Defined.

(** X15.  For the domain [localhost] the portal is never looked at: whatever
    string is passed as the portal URL, well-formed or not, the result is
    [localhost], or [localhost/p] for a path [p]. *)
Theorem getFullDomainUrlForPortal_localhost_any_portal (portalUrl : string) :
  getFullDomainUrlForPortal portalUrl "localhost" = Ok "localhost"
  ∧ ∀ p, plainPath p = true →
      getFullDomainUrlForPortal portalUrl ("localhost" +:+ "/" +:+ p)
      = Ok ("localhost" +:+ "/" +:+ p).
Proof.
  split; [reflexivity|]. intros p Hp.
  by apply getFullDomainUrlForPortal_localhost_path.
Qed.

(** ** [extractOptions] *)

Lemma extractOptionsLoop_present {V} (opts : gmap string V) properties result :
  "__proto__" ∉ properties →
  (∀ k, k ∈ properties → is_Some (opts !! k)) →
  ∃ r, extractOptionsLoop opts properties result = Returned r
       ∧ ∀ k, r !! k = if decide (k ∈ properties) then opts !! k else result !! k.
Proof.
  revert result. induction properties as [|p rest IH]; intros result Hproto Hall.
  - exists result. split; [done|]. intros k.
    destruct (decide (k ∈ [])) as [Hk|_]; [|done]. by apply elem_of_nil in Hk.
  - destruct (Hall p) as [v Hv]; [left|].
    apply not_elem_of_cons in Hproto as [Hp Hproto].
    assert (setProperty result p v = <[p := v]> result) as Hset
      by (unfold setProperty; by rewrite bool_decide_eq_false_2).
    destruct (IH (<[p := v]> result)) as (r & Hr & Hlookup); [done| |].
    { intros k Hk. apply Hall. by right. }
    exists r. split; [cbn [extractOptionsLoop]; by rewrite Hv, Hset|].
    intros k. rewrite Hlookup.
    destruct (decide (k ∈ rest)) as [Hin|Hnotin].
    + rewrite decide_True by (by right). done.
    + destruct (decide (k = p)) as [->|Hne].
      * rewrite decide_True by left. by rewrite lookup_insert_eq.
      * rewrite decide_False by (intros [?|?]%elem_of_cons; done).
        by rewrite lookup_insert_ne.
Qed.

Lemma extractOptionsLoop_total {V} (opts : gmap string V) properties result :
  (∀ k, k ∈ properties → is_Some (opts !! k)) →
  ∃ r, extractOptionsLoop opts properties result = Returned r.
Proof.
  revert result. induction properties as [|p rest IH]; intros result Hall.
  - by exists result.
  - destruct (Hall p) as [v Hv]; [left|]. cbn [extractOptionsLoop]. rewrite Hv.
    apply IH. intros k Hk. apply Hall. by right.
Qed.

Lemma extractOptionsLoop_missing {V} (opts : gmap string V) before k after result :
  (∀ j, j ∈ before → is_Some (opts !! j)) →
  opts !! k = None →
  extractOptionsLoop opts (before ++ k :: after) result
  = Error ("Property '" +:+ k +:+ "' not found").
Proof.
  revert result. induction before as [|p rest IH]; intros result Hall Hk.
  - cbn. by rewrite Hk.
  - destruct (Hall p) as [v Hv]; [left|].
    cbn [app extractOptionsLoop]. rewrite Hv. apply IH; [|done].
    intros j Hj. apply Hall. by right.
Qed.

Lemma first_missing {V} (opts : gmap string V) (model : list string) :
  (∀ k, k ∈ model → is_Some (opts !! k))
  ∨ ∃ before k after,
      model = before ++ k :: after
      ∧ (∀ j, j ∈ before → is_Some (opts !! j))
      ∧ opts !! k = None.
Proof.
  induction model as [|p rest IH].
  - left. intros k Hk. by apply elem_of_nil in Hk.
  - destruct (opts !! p) as [v|] eqn:Hp.
    + destruct IH as [Hall | (before & k & after & -> & Hbefore & Hk)].
      * left. intros k [->|Hk]%elem_of_cons; [eauto | by apply Hall].
      * right. exists (p :: before), k, after. split; [done|]. split; [|done].
        intros j [->|Hj]%elem_of_cons; [eauto | by apply Hbefore].
    + right. exists [], p, rest. split; [done|]. split; [|done].
      intros j Hj. by apply elem_of_nil in Hj.
Qed.

(** X16.  For a model without a property named [__proto__], [extractOptions]
    returns an object exactly when [opts] has every property of the model.
    The object then has the model's properties and no other, each with the
    value it has in [opts] (extra properties of [opts] are dropped), and
    extracting from it again changes nothing. *)
Theorem extractOptions_returns {V} (opts : gmap string V) (model : list string) :
  "__proto__" ∉ model →
  ((∀ k, k ∈ model → is_Some (opts !! k)) ↔
   ∃ r, extractOptions opts model = Returned r)
  ∧ ∀ r, extractOptions opts model = Returned r →
      (∀ k, r !! k = if decide (k ∈ model) then opts !! k else None)
      ∧ (∀ k, k ∈ model ↔ is_Some (r !! k))
      ∧ r ⊆ opts
      ∧ extractOptions r model = Returned r.
Proof.
  intros Hproto.
  assert (Hok : (∀ k, k ∈ model → is_Some (opts !! k)) →
    ∃ r, extractOptions opts model = Returned r
         ∧ ∀ k, r !! k = if decide (k ∈ model) then opts !! k else None).
  { intros Hall.
    destruct (extractOptionsLoop_present opts model ∅ Hproto Hall)
      as (r & Hr & Hlookup).
    exists r. split; [done|]. intros k. rewrite Hlookup.
    by rewrite lookup_empty. }
  assert (Hall : ∀ r, extractOptions opts model = Returned r →
                 ∀ k, k ∈ model → is_Some (opts !! k)).
  { intros r Hr.
    destruct (first_missing opts model)
      as [Hall | (before & k & after & -> & Hbefore & Hk)]; [done|].
    unfold extractOptions in Hr.
    by rewrite (extractOptionsLoop_missing opts before k after ∅) in Hr. }
  split.
  - split; [|intros [r Hr]; by eapply Hall].
    intros H. destruct (Hok H) as (r & Hr & _). eauto.
  - intros r Hr. pose proof (Hall r Hr) as Hpresent.
    destruct (Hok Hpresent) as (r' & Hr' & Hlookup).
    rewrite Hr in Hr'. injection Hr' as <-.
    assert (Hdom : ∀ k, k ∈ model ↔ is_Some (r !! k)).
    { intros k. rewrite Hlookup. destruct (decide (k ∈ model)) as [Hin|Hnotin].
      - split; [intros _; by apply Hpresent | done].
      - split; [done | by intros [? ?]]. }
    split; [done|]. split; [done|]. split.
    + apply map_subseteq_spec. intros k v Hkv. rewrite Hlookup in Hkv.
      by destruct (decide (k ∈ model)).
    + destruct (extractOptionsLoop_present r model ∅ Hproto)
        as (r2 & Hr2 & Hlookup2).
      { intros k Hk. by apply Hdom. }
      unfold extractOptions. rewrite Hr2. f_equal. apply map_eq. intros k.
      rewrite Hlookup2, lookup_empty, (Hlookup k).
      by destruct (decide (k ∈ model)).
Qed.

(** X17.  When [opts] lacks a property of the model, [extractOptions] throws
    an error that names the first such property in the model's enumeration
    order, and it throws in no other case. *)
Theorem extractOptions_throws {V} (opts : gmap string V) (model : list string) :
  (∀ before k after,
     model = before ++ k :: after →
     (∀ j, j ∈ before → is_Some (opts !! j)) →
     opts !! k = None →
     extractOptions opts model = Error ("Property '" +:+ k +:+ "' not found"))
  ∧ ((∃ k, k ∈ model ∧ opts !! k = None) ↔
     ∃ message, extractOptions opts model = Error message).
Proof.
  split.
  - intros before k after -> Hbefore Hk. by apply extractOptionsLoop_missing.
  - split.
    + intros (k & Hin & Hk).
      destruct (first_missing opts model)
        as [Hall | (before & k' & after & -> & Hbefore & Hk')].
      * destruct (Hall k Hin) as [v Hv]. congruence.
      * eexists. by apply extractOptionsLoop_missing.
    + intros [message Hm].
      destruct (first_missing opts model)
        as [Hall | (before & k' & after & -> & Hbefore & Hk')].
      * destruct (extractOptionsLoop_total opts model ∅ Hall) as [r Hr].
        unfold extractOptions in Hm. congruence.
      * exists k'. split; [|done]. apply elem_of_app. right. left.
Qed.

Lemma extractOptions_returns_witness :
  ((∀ k, k ∈ ["c"; "a"] →
      is_Some (({[ "a" := 1; "b" := 2; "c" := 3 ]} : gmap string Z) !! k)) ↔
   ∃ r, extractOptions ({[ "a" := 1; "b" := 2; "c" := 3 ]} : gmap string Z)
          ["c"; "a"] = Returned r)
  ∧ ∀ r, extractOptions ({[ "a" := 1; "b" := 2; "c" := 3 ]} : gmap string Z)
           ["c"; "a"] = Returned r →
      (∀ k, r !! k =
            if decide (k ∈ ["c"; "a"])
            then ({[ "a" := 1; "b" := 2; "c" := 3 ]} : gmap string Z) !! k
            else None)
      ∧ (∀ k, k ∈ ["c"; "a"] ↔ is_Some (r !! k))
      ∧ r ⊆ {[ "a" := 1; "b" := 2; "c" := 3 ]}
      ∧ extractOptions r ["c"; "a"] = Returned r.
Proof.
  apply (extractOptions_returns
           ({[ "a" := 1; "b" := 2; "c" := 3 ]} : gmap string Z) ["c"; "a"]).
  intros H. apply elem_of_cons in H as [H|H]; [discriminate H|].
  apply elem_of_cons in H as [H|H]; [discriminate H|].
  by apply elem_of_nil in H.
Defined.

Example extractOptions_example :
  extractOptions (V := Z) {[ "a" := 1; "b" := 2; "c" := 3 ]} ["c"; "a"]
  = Returned {[ "a" := 1; "c" := 3 ]}
  ∧ extractOptions (V := Z) {[ "a" := 1 ]} ["a"; "x"; "y"]
    = Error "Property 'x' not found".
Proof. split; vm_compute; reflexivity. Qed.

(** ** [numberToBuffer] *)

Lemma toInt32_small v : - 2 ^ 31 ≤ v < 2 ^ 31 → toInt32 v = v.
Proof. intros Hv. unfold toInt32. rewrite Z.mod_small by lia. lia. Qed.

Lemma toInt32_periodic v k : toInt32 (v + 2 ^ 32 * k) = toInt32 v.
Proof.
  unfold toInt32. f_equal.
  replace (v + 2 ^ 32 * k + 2 ^ 31) with (v + 2 ^ 31 + k * 2 ^ 32) by lia.
  apply Z.mod_add. lia.
Qed.

Lemma numberToBufferStep_small view lastIndex v index :
  0 ≤ v < 2 ^ 31 →
  numberToBufferStep (view, lastIndex, v) index
  = (<[Z.to_nat index := v `mod` 256]> view,
     (if bool_decide (v `mod` 256 ≠ 0) then index else lastIndex),
     v / 256).
Proof.
  intros Hv. unfold numberToBufferStep.
  rewrite Z.rem_mod_nonneg by lia. rewrite Z.mod_mod by lia.
  rewrite toInt32_small by lia. rewrite Z.shiftr_div_pow2 by lia.
  reflexivity.
Qed.

Lemma numberToBufferStep_zero view lastIndex index :
  numberToBufferStep (view, lastIndex, 0) index
  = (<[Z.to_nat index := 0]> view, lastIndex, 0).
Proof. reflexivity. Qed.

Lemma foldl_cons_step {A B} (f : A → B → A) a x l :
  foldl f a (x :: l) = foldl f (f a x) l.
Proof. reflexivity. Qed.

Lemma foldl_nil_step {A B} (f : A → B → A) a : foldl f a [] = a.
Proof. reflexivity. Qed.

Lemma seqZ_0_16 :
  seqZ 0 16 = [0; 1; 2; 3; 4; 5; 6; 7; 8; 9; 10; 11; 12; 13; 14; 15].
Proof. reflexivity. Qed.

Lemma numberToBuffer_small v :
  0 ≤ v < 2 ^ 31 →
  let b0 := v `mod` 256 in
  let b1 := (v / 256) `mod` 256 in
  let b2 := (v / 256 / 256) `mod` 256 in
  let b3 := (v / 256 / 256 / 256) `mod` 256 in
  let lastIndex :=
    if bool_decide (b3 ≠ 0) then 3
    else if bool_decide (b2 ≠ 0) then 2
    else if bool_decide (b1 ≠ 0) then 1
    else if bool_decide (b0 ≠ 0) then 0
    else 15 in
  numberToBuffer v
  = take (Z.to_nat (lastIndex + 1))
      [b0; b1; b2; b3; 0; 0; 0; 0; 0; 0; 0; 0; 0; 0; 0; 0].
Proof.
  intros Hv b0 b1 b2 b3 lastIndex. unfold numberToBuffer.
  rewrite seqZ_0_16, !foldl_cons_step, foldl_nil_step.
  assert (Hv4 : v / 256 / 256 / 256 / 256 = 0) by (Z.div_mod_to_equations; lia).
  rewrite (numberToBufferStep_small _ _ v) by lia.
  rewrite (numberToBufferStep_small _ _ (v / 256))
    by (Z.div_mod_to_equations; lia).
  rewrite (numberToBufferStep_small _ _ (v / 256 / 256))
    by (Z.div_mod_to_equations; lia).
  rewrite (numberToBufferStep_small _ _ (v / 256 / 256 / 256))
    by (Z.div_mod_to_equations; lia).
  rewrite Hv4. rewrite !numberToBufferStep_zero.
  reflexivity.
Qed.

(** X18.  For a size below 2^31 [numberToBuffer] is the shortest
    little-endian encoding: the bytes lie in 0..255 and stand for the size,
    a positive size takes at most four bytes and its last byte is not zero,
    and the size 0 is written as sixteen zero bytes. *)
Theorem numberToBuffer_little_endian (v : Z) :
  0 ≤ v < 2 ^ 31 →
  littleEndian (numberToBuffer v) = v
  ∧ (∀ b, b ∈ numberToBuffer v → 0 ≤ b < 256)
  ∧ (0 < v →
     (length (numberToBuffer v) ≤ 4)%nat
     ∧ ∃ b, last (numberToBuffer v) = Some b ∧ b ≠ 0)
  ∧ (v = 0 → numberToBuffer v = replicate 16 0).
Proof.
  intros Hv. rewrite (numberToBuffer_small v Hv). cbv zeta.
  set (b0 := v `mod` 256). set (b1 := (v / 256) `mod` 256).
  set (b2 := (v / 256 / 256) `mod` 256).
  set (b3 := (v / 256 / 256 / 256) `mod` 256).
  assert (Hb : 0 ≤ b0 < 256 ∧ 0 ≤ b1 < 256 ∧ 0 ≤ b2 < 256 ∧ 0 ≤ b3 < 256)
    by (unfold b0, b1, b2, b3; Z.div_mod_to_equations; lia).
  assert (Hsum : v = b0 + 256 * (b1 + 256 * (b2 + 256 * (b3 + 256 * 0))))
    by (unfold b0, b1, b2, b3; Z.div_mod_to_equations; lia).
  assert (Hmem : ∀ n b,
    b ∈ take n [b0; b1; b2; b3; 0; 0; 0; 0; 0; 0; 0; 0; 0; 0; 0; 0] → 0 ≤ b < 256).
  { intros n b Hin. apply elem_of_take in Hin as (i & Hin & _).
    apply list_elem_of_lookup_2 in Hin.
    repeat (apply elem_of_cons in Hin as [-> | Hin]; [lia|]).
    by apply elem_of_nil in Hin. }
  split; [|split; [by apply Hmem|split]].
  - unfold littleEndian.
    repeat case_bool_decide;
      match goal with |- context [Z.to_nat ?a] =>
        let n := eval vm_compute in (Z.to_nat a) in change (Z.to_nat a) with n end;
      cbn [take foldr]; lia.
  - intros Hpos.
    repeat case_bool_decide;
      match goal with |- context [Z.to_nat ?a] =>
        let n := eval vm_compute in (Z.to_nat a) in change (Z.to_nat a) with n end;
      cbn [take length last]; try lia; (split; [lia|]); eauto.
  - intros ->. reflexivity.
Qed.

Lemma numberToBuffer_little_endian_witness :
  littleEndian (numberToBuffer 41943040) = 41943040
  ∧ (∀ b, b ∈ numberToBuffer 41943040 → 0 ≤ b < 256)
  ∧ (0 < 41943040 →
     (length (numberToBuffer 41943040) ≤ 4)%nat
     ∧ ∃ b, last (numberToBuffer 41943040) = Some b ∧ b ≠ 0)
  ∧ (41943040 = 0 → numberToBuffer 41943040 = replicate 16 0).
Proof. apply (numberToBuffer_little_endian 41943040). lia. Defined.

(** X19.  [numberToBuffer] reads the low 32 bits of a size only, because it
    shifts with [>>]: a size and the same size plus a multiple of 4 GiB are
    written as the same bytes. *)
Theorem numberToBuffer_low_32_bits (v k : Z) :
  0 ≤ v → 0 ≤ k →
  numberToBuffer (v + 2 ^ 32 * k) = numberToBuffer v.
Proof.
  intros Hv Hk. unfold numberToBuffer.
  rewrite seqZ_0_16, !foldl_cons_step.
  assert (numberToBufferStep (replicate 16 0, 15, v + 2 ^ 32 * k) 0
          = numberToBufferStep (replicate 16 0, 15, v) 0) as ->; [|done].
  unfold numberToBufferStep. rewrite toInt32_periodic.
  assert (Z.rem (v + 2 ^ 32 * k) 256 = Z.rem v 256) as ->; [|done].
  rewrite !Z.rem_mod_nonneg by lia.
  replace (v + 2 ^ 32 * k) with (v + (2 ^ 24 * k) * 256) by lia.
  apply Z.mod_add. lia.
Qed.

Lemma numberToBuffer_low_32_bits_witness :
  numberToBuffer (5 + 2 ^ 32 * 1) = numberToBuffer 5.
Proof. apply (numberToBuffer_low_32_bits 5 1); lia. Defined.

(** ** Which parts are empty *)

Lemma bucketSize_positive totalSize partCount chunkSize k :
  1 ≤ partCount → 1 ≤ chunkSize → 0 ≤ totalSize → 0 ≤ k < partCount →
  0 < bucketSize totalSize partCount chunkSize k ↔
  k < totalSize / chunkSize
  ∨ (k = totalSize / chunkSize ∧ totalSize `mod` chunkSize ≠ 0).
Proof.
  intros Hpc Hc Ht Hk. unfold bucketSize, leftoverIndex.
  set (n := totalSize / chunkSize) in *.
  assert (Hn : 0 ≤ n) by (apply Z.div_pos; lia).
  rewrite roundRobinCount_closed by lia. rewrite Z2Nat.id by lia.
  pose proof (Z.mod_pos_bound totalSize chunkSize ltac:(lia)) as Hm.
  pose proof (Z.mod_pos_bound n partCount ltac:(lia)) as Hr.
  pose proof (Z.div_mod n partCount ltac:(lia)) as Hdm.
  assert (Hq : 0 ≤ n / partCount) by (apply Z.div_pos; lia).
  set (q := n / partCount) in *. set (r := n `mod` partCount) in *.
  set (m := totalSize `mod` chunkSize) in *.
  destruct (decide (q = 0)) as [Hq0|Hq0].
  - rewrite Hq0 in *. assert (n = r) by lia.
    repeat case_bool_decide; split; intros; nia.
  - assert (partCount ≤ n) by nia.
    repeat case_bool_decide; split; intros; nia.
Qed.

(** X20.  On valid integer input with [partCount < 2^32] and
    [totalSize < 2^53] the non-empty parts are the first ones: the part at
    index [i] holds bytes exactly when [i] is below the number of whole
    chunks, or equal to it with a leftover to place.  So of [partCount]
    requested parts only [totalSize / chunkSize] (one more with a leftover)
    can be non-empty. *)
Theorem split_nonempty_parts totalSize partCount chunkSize :
  1 ≤ partCount < 2 ^ 32 → 1 ≤ chunkSize → chunkSize < totalSize < 2 ^ 53 →
  ∃ parts,
    splitSizeIntoChunkAlignedParts totalSize partCount chunkSize = Ok parts
    ∧ ∀ i p, parts !! i = Some p →
        (start p < end_ p ↔
         Z.of_nat i < totalSize / chunkSize
         ∨ (Z.of_nat i = totalSize / chunkSize ∧ totalSize `mod` chunkSize ≠ 0)).
Proof.
  intros Hpc Hc Ht.
  destruct (split_valid_sizes totalSize partCount chunkSize Hpc Hc Ht)
    as (parts & Hrun & Hlen & Hparts & Hsum).
  exists parts. split; [done|]. intros i p Hp.
  destruct (Hparts _ _ Hp) as (Hi & _ & _ & Hsz).
  rewrite <-(bucketSize_positive totalSize partCount chunkSize (Z.of_nat i))
    by lia.
  rewrite <-Hsz. unfold partSize. lia.
Qed.

Lemma split_nonempty_parts_witness :
  ∃ parts,
    splitSizeIntoChunkAlignedParts 25 4 10 = Ok parts
    ∧ ∀ i p, parts !! i = Some p →
        (start p < end_ p ↔
         Z.of_nat i < 25 / 10 ∨ (Z.of_nat i = 25 / 10 ∧ 25 `mod` 10 ≠ 0)).
Proof. apply (split_nonempty_parts 25 4 10); lia. Defined.

(** ** The threshold between the two upload paths *)

